(** * research-agent: the orchestration core, embedded in Rocq

    A shallow embedding of the multi-agent research pipeline
    (research_system/core/orchestrator.py, agents/*.py, utils/parsers.py):
    the plan stage, the research worker, the worker coordinator, the source
    registry and the bibliography parser, followed by the properties the
    specification states about them.

    Text is modelled by [string]: sequences of 8-bit characters, read as the
    code points below 256.  Python integers are [Z].  Calls that leave the
    process (the generation service, the agent executor, the progress
    callback, the clock) are parameters of the model, collected in [world]. *)

From Stdlib Require Import ZArith Ascii String List Bool Lia.
From stdpp Require Import base option list strings pretty gmap fin_maps.

Local Open Scope string_scope.
Local Open Scope nat_scope.
Local Open Scope list_scope.

(** ** Python's [str] operations *)

Module PyStr.

Definition nl : ascii := "010"%char.
Definition NL : string := String nl "".

(** [str.isspace] on one character, which is also the class [\s] of the
    [re] module for [str] patterns: TAB LF VT FF CR, FS GS RS US, space,
    NEL and NBSP. *)
Definition is_space (c : ascii) : bool :=
  let n := nat_of_ascii c in
  ((9 <=? n) && (n <=? 13)) || ((28 <=? n) && (n <=? 32))
  || (n =? 133) || (n =? 160).

(** The class [\d]: below 256 only the ASCII digits are decimal digits. *)
Definition is_digit (c : ascii) : bool :=
  let n := nat_of_ascii c in (48 <=? n) && (n <=? 57).

(** [str.lower] on one character: the ASCII capitals and the Latin-1
    capitals (all of 192..222 but the multiplication sign 215). *)
Definition lower_char (c : ascii) : ascii :=
  let n := nat_of_ascii c in
  if ((65 <=? n) && (n <=? 90))
     || ((192 <=? n) && (n <=? 222) && negb (n =? 215))
  then ascii_of_nat (n + 32) else c.

Fixpoint lower (s : string) : string :=
  match s with
  | "" => ""
  | String c s' => String (lower_char c) (lower s')
  end.

Fixpoint lstrip (s : string) : string :=
  match s with
  | String c s' => if is_space c then lstrip s' else s
  | "" => ""
  end.

(** [rstrip] keeps a character when it is not white space or when
    something survives after it. *)
Fixpoint rstrip (s : string) : string :=
  match s with
  | "" => ""
  | String c s' =>
      match rstrip s' with
      | "" => if is_space c then "" else String c ""
      | r => String c r
      end
  end.

Definition strip (s : string) : string := rstrip (lstrip s).

Definition startswith (s p : string) : bool := String.prefix p s.

(** The slice [s[:n]] for [n] not negative. *)
Fixpoint str_take (n : nat) (s : string) : string :=
  match n, s with
  | S n', String c s' => String c (str_take n' s')
  | _, _ => ""
  end.

(** [needle in s] for strings. *)
Fixpoint contains (needle s : string) : bool :=
  String.prefix needle s
  || match s with
     | "" => false
     | String _ s' => contains needle s'
     end.

(** [s.split(sep)] for a one-character separator: the result is never
    empty, and [k] separators give [k + 1] pieces. *)
Fixpoint split_char (sep : ascii) (s : string) : list string :=
  match s with
  | "" => [""]
  | String c s' =>
      if Ascii.eqb c sep then "" :: split_char sep s'
      else match split_char sep s' with
           | piece :: rest => String c piece :: rest
           | [] => [String c ""]
           end
  end.

(** [s.replace(old, new)] for a non-empty [old]: the occurrences are
    replaced from the left and do not overlap; [skip] counts the
    characters of an occurrence still to be passed over. *)
Fixpoint replace_from (old new : string) (skip : nat) (s : string) : string :=
  match s with
  | "" => ""
  | String c s' =>
      match skip with
      | S k => replace_from old new k s'
      | O =>
          if String.prefix old s
          then new +:+ replace_from old new (String.length old - 1) s'
          else String c (replace_from old new O s')
      end
  end.

Definition replace (s old new : string) : string := replace_from old new 0 s.

(** [s.split(sep)] for a non-empty [sep] of any length. *)
Fixpoint split_from (sep : string) (skip : nat) (s : string) : list string :=
  match s with
  | "" => [""]
  | String c s' =>
      match skip with
      | S k => split_from sep k s'
      | O =>
          if String.prefix sep s
          then "" :: split_from sep (String.length sep - 1) s'
          else match split_from sep O s' with
               | piece :: rest => String c piece :: rest
               | [] => [String c ""]
               end
      end
  end.

Definition split (s sep : string) : list string := split_from sep 0 s.

(** [sep.join(parts)]. *)
Fixpoint join (sep : string) (parts : list string) : string :=
  match parts with
  | [] => ""
  | [p] => p
  | p :: rest => p +:+ sep +:+ join sep rest
  end.

(** [int(s)] on a string of decimal digits, as [re]'s [\d+] delivers. *)
Definition digit_val (c : ascii) : Z := Z.of_nat (nat_of_ascii c - 48).

Fixpoint int_acc (acc : Z) (s : string) : Z :=
  match s with
  | "" => acc
  | String c s' => int_acc (10 * acc + digit_val c)%Z s'
  end.

Definition int (s : string) : Z := int_acc 0%Z s.

End PyStr.

(** ** A backtracking matcher with the semantics of Python's [re]

    The patterns of the sources are written as [regex] terms and run by
    [rmatch], a continuation-passing backtracking matcher: alternatives are
    tried left to right, greedy repetition tries one more iteration before
    the continuation, lazy repetition tries the continuation first. *)

Module Re.
Import PyStr.

Inductive regex : Type :=
| Eps                                  (* the empty pattern *)
| Lit (c : ascii)                      (* a literal character *)
| LitI (c : ascii)                     (* a literal under IGNORECASE *)
| Cls (p : ascii -> bool)              (* a class: \s, \d, [...], . *)
| Cat (r1 r2 : regex)
| Alt (r1 r2 : regex)                  (* r1|r2 *)
| Star (r : regex)                     (* r*  greedy *)
| LazyStar (r : regex)                 (* r*? lazy *)
| Grp (n : nat) (r : regex)            (* capturing group number n *)
| Eos.                                 (* $ without MULTILINE *)

(** Captured groups, latest first. *)
Definition captures := list (nat * string).

Fixpoint group_of (cs : captures) (n : nat) : option string :=
  match cs with
  | [] => None
  | (m, s) :: cs' => if Nat.eqb m n then Some s else group_of cs' n
  end.

(** [$] matches at the end of the text and before a final newline. *)
Definition at_end (s : string) : bool :=
  match s with
  | "" => true
  | String c "" => Ascii.eqb c nl
  | _ => false
  end.

(** [rmatch r s cs k] matches [r] at the head of [s] and hands what is left
    of [s], with the groups, to [k]; when [k] fails the matcher backtracks.
    An iteration of a repetition has to consume a character, so a
    repetition on [s] iterates at most [length s] times: that is the fuel
    of its loop, and a loop out of fuel stands at the end of the text,
    where only the continuation is left to try. *)
Fixpoint rmatch {R : Type} (r : regex) (s : string) (cs : captures)
    (k : string -> captures -> option R) {struct r} : option R :=
  match r with
  | Eps => k s cs
  | Lit c =>
      match s with
      | String a s' => if Ascii.eqb a c then k s' cs else None
      | "" => None
      end
  | LitI c =>
      match s with
      | String a s' =>
          if Ascii.eqb (lower_char a) (lower_char c) then k s' cs else None
      | "" => None
      end
  | Cls p =>
      match s with
      | String a s' => if p a then k s' cs else None
      | "" => None
      end
  | Cat r1 r2 => rmatch r1 s cs (fun s' cs' => rmatch r2 s' cs' k)
  | Alt r1 r2 =>
      match rmatch r1 s cs k with
      | Some x => Some x
      | None => rmatch r2 s cs k
      end
  | Star r1 =>
      (fix loop (fuel : nat) (s : string) (cs : captures) : option R :=
         match fuel with
         | O => k s cs
         | S fuel' =>
             match
               rmatch r1 s cs (fun s' cs' =>
                 if String.length s' <? String.length s
                 then loop fuel' s' cs' else None)
             with
             | Some x => Some x
             | None => k s cs
             end
         end) (String.length s) s cs
  | LazyStar r1 =>
      (fix loop (fuel : nat) (s : string) (cs : captures) : option R :=
         match fuel with
         | O => k s cs
         | S fuel' =>
             match k s cs with
             | Some x => Some x
             | None =>
                 rmatch r1 s cs (fun s' cs' =>
                   if String.length s' <? String.length s
                   then loop fuel' s' cs' else None)
             end
         end) (String.length s) s cs
  | Grp n r1 =>
      rmatch r1 s cs (fun s' cs' =>
        k s' ((n, str_take (String.length s - String.length s') s) :: cs'))
  | Eos => if at_end s then k s cs else None
  end.

(** Derived forms. *)
Definition Plus (r : regex) : regex := Cat r (Star r).          (* r+  *)
Definition LazyPlus (r : regex) : regex := Cat r (LazyStar r).  (* r+? *)
Definition Opt (r : regex) : regex := Alt r Eps.                (* r?  *)
Definition Any : regex := Cls (fun _ => true).         (* . with DOTALL *)
Definition Dot : regex := Cls (fun c => negb (Ascii.eqb c nl)).  (* . *)
Definition Space : regex := Cls is_space.                       (* \s  *)
Definition Digit : regex := Cls is_digit.                       (* \d  *)

Fixpoint Str (s : string) : regex :=
  match s with
  | "" => Eps
  | String c s' => Cat (Lit c) (Str s')
  end.

Fixpoint StrI (s : string) : regex :=
  match s with
  | "" => Eps
  | String c s' => Cat (LitI c) (StrI s')
  end.

Fixpoint Seq (rs : list regex) : regex :=
  match rs with
  | [] => Eps
  | r :: rs' => Cat r (Seq rs')
  end.

Definition Range (lo hi : ascii) : regex :=
  Cls (fun c => (nat_of_ascii lo <=? nat_of_ascii c)
                && (nat_of_ascii c <=? nat_of_ascii hi)).

Definition OneOf (chars : string) : regex :=
  Cls (fun c => existsb (Ascii.eqb c) (list_ascii_of_string chars)).

(** A match: where it starts, what it covers, what follows it, and the
    groups. *)
Record rmatch_result := {
  m_start : nat;
  m_text : string;
  m_rest : string;
  m_groups : captures
}.

Definition group (m : rmatch_result) (n : nat) : string :=
  match group_of (m_groups m) n with Some s => s | None => "" end.

Definition match_here (r : regex) (pos : nat) (s : string)
    : option rmatch_result :=
  rmatch r s [] (fun s' cs =>
    Some {| m_start := pos;
            m_text := str_take (String.length s - String.length s') s;
            m_rest := s';
            m_groups := cs |}).

(** [re.search]: the leftmost position at which the pattern matches. *)
Fixpoint search_from (r : regex) (pos : nat) (s : string)
    : option rmatch_result :=
  match match_here r pos s with
  | Some m => Some m
  | None =>
      match s with
      | "" => None
      | String _ s' => search_from r (S pos) s'
      end
  end.

Definition search (r : regex) (s : string) : option rmatch_result :=
  search_from r 0 s.

(** [re.finditer]: the matches from left to right, none overlapping the
    one before; [skip] counts the characters of the last match still to
    be passed over.  (After an empty match the scan moves on by one
    character; no pattern of the sources matches the empty string.) *)
Fixpoint finditer_from (r : regex) (skip pos : nat) (s : string)
    : list rmatch_result :=
  match skip with
  | S k =>
      match s with
      | "" => []
      | String _ s' => finditer_from r k (S pos) s'
      end
  | O =>
      match match_here r pos s with
      | Some m =>
          m :: match s with
               | "" => []
               | String _ s' =>
                   finditer_from r (String.length (m_text m) - 1) (S pos) s'
               end
      | None =>
          match s with
          | "" => []
          | String _ s' => finditer_from r O (S pos) s'
          end
      end
  end.

Definition finditer (r : regex) (s : string) : list rmatch_result :=
  finditer_from r 0 0 s.

(** [re.findall] for a pattern with exactly one group: that group of
    every match. *)
Definition findall1 (r : regex) (s : string) : list string :=
  (fun m => group m 1) <$> finditer r s.

(** [re.findall] for a pattern without groups: the matched texts. *)
Definition findall0 (r : regex) (s : string) : list string :=
  m_text <$> finditer r s.

End Re.

(** ** The data model (core/models.py) and the outcome of a call *)

Module Models.

Record ResearchPlan := {
  tasks : list string;
  rationale : string;
  estimated_duration : option Z
}.

(** The dictionary a worker returns. *)
Record SubagentResult := {
  agent_id : string;
  task : string;
  summary : string;
  findings : string;
  sources : list string;
  confidence : string
}.

Record Citation := {
  index : Z;
  title : string;
  url : string;
  accessed_date : string;
  excerpt : option string
}.

Inductive detail :=
| DStr (s : string)
| DInt (n : Z)
| DList (l : list string).

Record ProgressUpdate := {
  phase : string;
  message : string;
  percent : Z;
  details : option (list (string * detail))
}.

Record Metadata := {
  subagents_count : Z;
  sources_count : Z;
  duration_seconds : string
}.

Record CitationResult := {
  cited_report : string;
  bibliography : list Citation;
  source_count : Z
}.

Record ResearchResult := {
  query : string;
  plan : ResearchPlan;
  subagent_results : list SubagentResult;
  synthesis : string;
  result_cited_report : string;
  result_bibliography : list Citation;
  metadata : Metadata
}.

(** A call returns a value or raises an exception, kept as its [str]. *)
Inductive outcome (A : Type) :=
| Returned (a : A)
| Raised (e : string).
Arguments Returned {A} a.
Arguments Raised {A} e.

Definition outcome_bind {A B} (f : A -> outcome B) (m : outcome A) : outcome B :=
  match m with
  | Returned a => f a
  | Raised e => Raised e
  end.

#[global] Instance outcome_mret : MRet outcome := fun _ a => Returned a.
#[global] Instance outcome_mbind : MBind outcome := fun _ _ f m => outcome_bind f m.

(** What the agent executor hands back to a worker: [result["output"]] is a
    string, a list of content blocks or something else; each intermediate
    step pairs an action (with its tool name, when it has one) with
    [str(result)]. *)
Inductive content_block :=
| TextBlock (text : string)
| OtherBlock (repr : string).

Inductive agent_output :=
| OutStr (s : string)
| OutBlocks (blocks : list content_block)
| OutOther (repr : string).

Record agent_step := {
  step_tool : option string;
  step_result : string
}.

Record executor_result := {
  output : option agent_output;
  intermediate_steps : list agent_step
}.

(** [len] of a list, as a Python integer. *)
Definition len {A} (l : list A) : Z := Z.of_nat (length l).

(** The slice [l[:stop]]: a negative [stop] counts from the end. *)
Definition slice_to {A} (l : list A) (stop : Z) : list A :=
  if (0 <=? stop)%Z then take (Z.to_nat stop) l
  else take (Z.to_nat (len l + stop)) l.

(** [enumerate(l, start)]. *)
Fixpoint enumerate {A} (start : Z) (l : list A) : list (Z * A) :=
  match l with
  | [] => []
  | x :: l' => (start, x) :: enumerate (start + 1)%Z l'
  end.

End Models.

(** ** utils/parsers.py *)

Module Parsers.
Import PyStr Re Models.

(** [<task>(.*?)</task>] with DOTALL. *)
Definition task_pattern : regex :=
  Seq [Str "<task>"; Grp 1 (LazyStar Any); Str "</task>"].

(** [<rationale>(.*?)</rationale>] with DOTALL. *)
Definition rationale_pattern : regex :=
  Seq [Str "<rationale>"; Grp 1 (LazyStar Any); Str "</rationale>"].

Record ParsedPlan := {
  parsed_tasks : list string;
  parsed_rationale : string
}.

Definition nonempty (s : string) : bool :=
  match s with "" => false | _ => true end.

Definition parse_research_plan (content : string) : ParsedPlan :=
  let tasks := findall1 task_pattern content in
  let rationale_match := search rationale_pattern content in
  {| parsed_tasks :=
       strip <$> List.filter (fun task => nonempty (strip task)) tasks;
     parsed_rationale :=
       match rationale_match with
       | Some m => strip (group m 1)
       | None => ""
       end |}.

(** [(?:Bibliography|Sources|References):?\s*\n(.+)] with DOTALL and
    IGNORECASE. *)
Definition bibliography_pattern : regex :=
  Seq [Alt (StrI "Bibliography") (Alt (StrI "Sources") (StrI "References"));
       Opt (LitI ":"); Star Space; LitI nl; Grp 1 (Plus Any)].

(** [\[(\d+)\]\s*(.+?)(?:\n\[|$)] with DOTALL. *)
Definition citation_pattern : regex :=
  Seq [Lit "["; Grp 1 (Plus Digit); Lit "]"; Star Space;
       Grp 2 (LazyPlus Any); Alt (Cat (Lit nl) (Lit "[")) Eos].

(** [URL:\s*(.+?)(?:\n|$)], no flags. *)
Definition url_pattern_line : regex :=
  Seq [Str "URL:"; Star Space; Grp 1 (LazyPlus Dot); Alt (Lit nl) Eos].

(** [Accessed:\s*(.+?)(?:\n|$)], no flags. *)
Definition accessed_pattern : regex :=
  Seq [Str "Accessed:"; Star Space; Grp 1 (LazyPlus Dot); Alt (Lit nl) Eos].

(** The body of the loop over the numbered entries, one local variable
    after the other: [citation_text], [url], [title], [accessed_date],
    and the Citation built from them. *)
Definition entry_text (m : rmatch_result) : string := strip (group m 2).

Definition entry_url (m : rmatch_result) : string :=
  match search url_pattern_line (entry_text m) with
  | Some url_match => strip (group url_match 1)
  | None => ""
  end.

Definition entry_title (m : rmatch_result) : string :=
  let title_lines := split_char nl (entry_text m) in
  strip (replace (hd "" title_lines) "URL:" "").

Definition entry_accessed_date (m : rmatch_result) : string :=
  match search accessed_pattern (entry_text m) with
  | Some date_match => strip (group date_match 1)
  | None => ""
  end.

Definition citation_of_match (m : rmatch_result) : Citation :=
  let url := entry_url m in
  let title := entry_title m in
  {| index := int (group m 1);
     title := if negb (startswith title "http") then title else url;
     url := if nonempty url then url else title;
     accessed_date := entry_accessed_date m;
     excerpt := None |}.

(** The fallback branch: one Citation per source, numbered from 1. *)
Definition fallback_citations (current_date : string) (sources : list string)
    : list Citation :=
  (fun '(i, source_url) =>
     {| index := i;
        title := source_url;
        url := source_url;
        accessed_date := current_date;
        excerpt := None |}) <$> enumerate 1 sources.

(** [current_date] is [datetime.now().strftime('%Y-%m-%d')]. *)
Definition parse_bibliography (current_date : string)
    (text : string) (sources : list string) : list Citation :=
  match search bibliography_pattern text with
  | Some bib_match =>
      let bib_text := group bib_match 1 in
      citation_of_match <$> finditer citation_pattern bib_text
  | None => fallback_citations current_date sources
  end.

(** [##?\s*Summary:?\s*(.+?)(?:\n##|\n\n##|$)] with DOTALL and
    IGNORECASE. *)
Definition summary_pattern : regex :=
  Seq [LitI "#"; Opt (LitI "#"); Star Space; StrI "Summary"; Opt (LitI ":");
       Star Space; Grp 1 (LazyPlus Any);
       Alt (Seq [LitI nl; StrI "##"])
           (Alt (Seq [LitI nl; LitI nl; StrI "##"]) Eos)].

(** [extract_summary] on a [str] argument, which is what the worker
    passes. *)
Definition extract_summary (text : string) : string :=
  match search summary_pattern text with
  | Some summary_match => strip (group summary_match 1)
  | None =>
      let paragraphs :=
        strip <$> List.filter (fun p => nonempty (strip p))
                              (split text (NL +:+ NL)) in
      match paragraphs with
      | p :: _ => p
      | [] => str_take 200 text
      end
  end.

(** [http[s]?://(?:[a-zA-Z]|[0-9]|[$-_@.&+]|[!*\\(\\),]|(?:%[0-9a-fA-F][0-9a-fA-F]))+] *)
Definition hex_digit : regex :=
  Alt (Range "0" "9") (Alt (Range "a" "f") (Range "A" "F")).

Definition url_pattern : regex :=
  Seq [Str "http"; Opt (OneOf "s"); Str "://";
       Plus (Alt (Alt (Range "a" "z") (Range "A" "Z"))
            (Alt (Range "0" "9")
            (Alt (Alt (Range "$" "_") (OneOf "@.&+"))
            (Alt (OneOf "!*\(\),")
                 (Seq [Lit "%"; hex_digit; hex_digit])))))].

(** [extract_sources_from_text] on a [str] argument.  [list_of_set] is
    the order in which Python enumerates the set of its argument. *)
Definition extract_sources_from_text
    (list_of_set : list string -> list string) (text : string)
    : list string :=
  let urls := findall0 url_pattern text in
  list_of_set urls.

End Parsers.

(** ** The collaborators

    Everything a run obtains from outside the process.  The generation
    service and the agent executor answer or raise; the progress callback
    returns or raises; [schedule] is the order in which the event loop
    runs the workers; [list_of_set] is the order in which Python
    enumerates a set. *)

Module Env.
Import Models.

Record Settings := {
  max_subagents : Z;
  min_subagents : Z
}.

(** What the event loop does next: give the next worker that has not run
    yet its first slice, or wake worker [i], whose research has returned. *)
Inductive action :=
| StartNext
| Resume (i : nat).

Record world := {
  settings : Settings;
  llm_plan : string -> outcome string;
  executor : string -> string -> outcome executor_result;
  llm_synthesis : string -> string -> outcome string;
  llm_citation : string -> string -> outcome string;
  progress_callback : ProgressUpdate -> option string;
  schedule : list action;
  current_date : string;
  elapsed : string;
  list_of_set : list string -> list string
}.

(** The same collaborators under another schedule of the event loop. *)
Definition with_schedule (w : world) (sched : list action) : world :=
  {| settings := settings w;
     llm_plan := llm_plan w;
     executor := executor w;
     llm_synthesis := llm_synthesis w;
     llm_citation := llm_citation w;
     progress_callback := progress_callback w;
     schedule := sched;
     current_date := current_date w;
     elapsed := elapsed w;
     list_of_set := list_of_set w |}.

End Env.

(** ** agents/subagent.py *)

Module Subagent.
Import PyStr Re Models Parsers Env.

(** The fields of a [ResearchSubagent] the run reads. *)
Record ResearchSubagent := {
  sa_task : string;
  sa_agent_id : string
}.

Definition _extract_text_from_output (output : agent_output) : string :=
  match output with
  | OutStr s => s
  | OutBlocks blocks =>
      join " " ((fun block => match block with
                              | TextBlock text => text
                              | OtherBlock repr => repr
                              end) <$> blocks)
  | OutOther repr => repr
  end.

Definition _extract_sources (w : world) (steps : list agent_step)
    : list string :=
  let sources :=
    flat_map (fun step =>
      match step_tool step with
      | Some tool =>
          if contains "search" (lower tool)
          then extract_sources_from_text (list_of_set w) (step_result step)
          else []
      | None => []
      end) steps in
  list_of_set w sources.

(** [##?\s*Confidence.*?:\s*(high|medium|low)] with IGNORECASE and
    DOTALL. *)
Definition confidence_pattern : regex :=
  Seq [LitI "#"; Opt (LitI "#"); Star Space; StrI "Confidence";
       LazyStar Any; LitI ":"; Star Space;
       Grp 1 (Alt (StrI "high") (Alt (StrI "medium") (StrI "low")))].

Definition _extract_confidence (output : string) : string :=
  match search confidence_pattern output with
  | Some confidence_match => lower (group confidence_match 1)
  | None => "medium"
  end.

(** The body of the [try] block of [research]: every step may raise. *)
Definition research_try (w : world) (self : ResearchSubagent)
    : outcome SubagentResult :=
  result ← executor w (sa_agent_id self) (sa_task self);
  raw ← match output result with
        | Some o => Returned o
        | None => Raised "'output'"
        end;
  let output_text := _extract_text_from_output raw in
  let sources := _extract_sources w (intermediate_steps result) in
  let output_sources := extract_sources_from_text (list_of_set w) output_text in
  let sources := list_of_set w (sources ++ output_sources) in
  let summary := extract_summary output_text in
  Returned {| agent_id := sa_agent_id self;
              task := sa_task self;
              summary := summary;
              findings := output_text;
              sources := sources;
              confidence := _extract_confidence output_text |}.

(** The [except Exception as e] branch. *)
Definition research_failed (self : ResearchSubagent) (e : string)
    : SubagentResult :=
  {| agent_id := sa_agent_id self;
     task := sa_task self;
     summary := "Research failed: " +:+ e;
     findings := "Error occurred during research: " +:+ e;
     sources := [];
     confidence := "low" |}.

(** [try: body except Exception as e: handler(e)] for a call. *)
Definition try_except {A} (body : outcome A) (handler : string -> outcome A)
    : outcome A :=
  match body with
  | Returned a => Returned a
  | Raised e => handler e
  end.

Definition research (w : world) (self : ResearchSubagent)
    : outcome SubagentResult :=
  try_except (research_try w self)
             (fun e => Returned (research_failed self e)).

End Subagent.

(** ** agents/citation_agent.py *)

Module CitationAgent.
Import PyStr Re Models Parsers Env.

(** The value stored for a URL: where it was first seen. *)
Record SourceMeta := {
  meta_url : string;
  meta_task : string;
  meta_agent_id : string
}.

(** The inner loop body of [_compile_sources]: a URL is registered when it
    is not empty and not yet a key of [source_map]. *)
Definition register_url (result : SubagentResult)
    (acc : list string * gmap string SourceMeta) (url : string)
    : list string * gmap string SourceMeta :=
  let '(all_sources, source_map) := acc in
  match nonempty url, source_map !! url with
  | true, None =>
      (all_sources ++ [url],
       <[url := {| meta_url := url;
                   meta_task := task result;
                   meta_agent_id := agent_id result |}]> source_map)
  | _, _ => acc
  end.

Definition _compile_sources (subagent_results : list SubagentResult)
    : list string * gmap string SourceMeta :=
  foldl (fun acc result => foldl (register_url result) acc (sources result))
        ([], ∅) subagent_results.

Definition _format_sources_for_prompt (current_date : string)
    (sources : list string) (source_map : gmap string SourceMeta) : string :=
  foldl (fun sources_text '(i, url) =>
           let related := match source_map !! url with
                          | Some meta => meta_task meta
                          | None => "General research"
                          end in
           sources_text
           +:+ NL +:+ "[Source " +:+ pretty i +:+ "] " +:+ url
           +:+ NL +:+ "  Related to: " +:+ related
           +:+ NL +:+ "  Accessed: " +:+ current_date
           +:+ NL)
        "" (enumerate 1 sources).

Definition add_citations (w : world) (document : string)
    (subagent_results : list SubagentResult) : outcome CitationResult :=
  let '(all_sources, source_map) := _compile_sources subagent_results in
  let sources_text :=
    _format_sources_for_prompt (current_date w) all_sources source_map in
  cited_document ← llm_citation w document sources_text;
  let bibliography :=
    parse_bibliography (current_date w) cited_document all_sources in
  Returned {| cited_report := cited_document;
              bibliography := bibliography;
              source_count := len all_sources |}.

End CitationAgent.

(** ** agents/lead_researcher.py *)

Module LeadResearcher.
Import PyStr Re Models Parsers Env.

Definition create_plan (w : world) (query : string) : outcome ResearchPlan :=
  content ← llm_plan w query;
  let parsed := parse_research_plan content in
  Returned {| tasks := parsed_tasks parsed;
              rationale := parsed_rationale parsed;
              estimated_duration := None |}.

Definition rule80 : string :=
  Eval vm_compute in
    String.concat "" (replicate 80 "=").

Definition _format_findings (subagent_results : list SubagentResult) : string :=
  foldl (fun findings_text '(i, result) =>
           let srcs := sources result in
           findings_text
           +:+ NL +:+ NL +:+ rule80 +:+ NL
           +:+ "SUBAGENT " +:+ pretty i +:+ ": " +:+ task result +:+ NL
           +:+ rule80 +:+ NL +:+ NL
           +:+ "Summary:" +:+ NL +:+ summary result +:+ NL +:+ NL
           +:+ "Detailed Findings:" +:+ NL +:+ findings result +:+ NL +:+ NL
           +:+ match srcs with
               | [] => ""
               | _ =>
                   "Sources Consulted (" +:+ pretty (len srcs) +:+ "):" +:+ NL
                   +:+ String.concat ""
                         ((fun source => "  - " +:+ source +:+ NL)
                            <$> slice_to srcs 10)
                   +:+ (if (len srcs >? 10)%Z
                        then "  ... and " +:+ pretty (len srcs - 10)%Z
                             +:+ " more" +:+ NL
                        else "")
               end
           +:+ NL +:+ "Confidence: " +:+ confidence result +:+ NL)
        "" (enumerate 1 subagent_results).

Definition synthesize (w : world) (query : string)
    (subagent_results : list SubagentResult) : outcome string :=
  let findings_text := _format_findings subagent_results in
  llm_synthesis w query findings_text.

End LeadResearcher.

(** ** core/orchestrator.py *)

Module Orchestrator.
Import PyStr Re Models Parsers Env Subagent.
Import CitationAgent LeadResearcher.

(** A step of the workflow appends the updates it sends to the log of the
    run, and returns or raises. *)
Definition log := list ProgressUpdate.
Definition M (A : Type) : Type := log -> log * outcome A.

Definition ret {A} (a : A) : M A := fun l => (l, Returned a).
Definition raise {A} (e : string) : M A := fun l => (l, Raised e).
Definition lift {A} (o : outcome A) : M A := fun l => (l, o).
Definition bind {A B} (m : M A) (f : A -> M B) : M B :=
  fun l => match m l with
           | (l', Returned a) => f a l'
           | (l', Raised e) => (l', Raised e)
           end.

Notation "x <- m ;; k" := (bind m (fun x => k))
  (at level 100, m at level 99, k at level 200, right associativity).
Notation "m ;;; k" := (bind m (fun _ => k))
  (at level 100, k at level 200, right associativity).

(** [try: body except Exception as e: handler(e)] for a workflow step. *)
Definition try_catch {A} (body : M A) (handler : string -> M A) : M A :=
  fun l => match body l with
           | (l', Returned a) => (l', Returned a)
           | (l', Raised e) => handler e l'
           end.

(** The callback receives the update; when it raises, so does
    [_send_progress].  [details if details else None]. *)
Definition _send_progress (w : world) (phase message : string) (percent : Z)
    (details : list (string * detail)) : M unit :=
  fun l =>
    let update := {| phase := phase;
                     message := message;
                     percent := percent;
                     details := match details with
                                | [] => None
                                | _ => Some details
                                end |} in
    (l ++ [update],
     match progress_callback w update with
     | None => Returned tt
     | Some e => Raised e
     end).

(** *** The coordinator *)

(** A worker coroutine has not run yet, is waiting for its research to
    return, or has finished with a value or an exception. *)
Inductive coro :=
| Pending
| Awaiting
| Settled (o : outcome SubagentResult).

Definition is_pending (c : coro) : bool :=
  match c with Pending => true | _ => false end.

(** [execute_with_progress] up to its [await]. *)
Definition start_percent (n index : Z) : Z := (25 + (index * 45) / n)%Z.
Definition finish_percent (n index : Z) : Z := (25 + ((index + 1) * 45) / n)%Z.

Definition execute_started (w : world) (n : Z) (subagent : ResearchSubagent)
    (index : Z) : M unit :=
  _send_progress w "subagent_started"
    ("Starting research agent " +:+ pretty (index + 1)%Z +:+ "/" +:+ pretty n)
    (start_percent n index)
    [("subagent_id", DStr (sa_agent_id subagent));
     ("task", DStr (sa_task subagent))].

(** [execute_with_progress] from its [await] to its [return]. *)
Definition execute_finished (w : world) (n : Z) (subagent : ResearchSubagent)
    (index : Z) : M SubagentResult :=
  result <- lift (Subagent.research w subagent) ;;
  _send_progress w "subagent_finished"
    ("Completed research agent " +:+ pretty (index + 1)%Z +:+ "/"
     +:+ pretty n)
    (finish_percent n index)
    [("subagent_id", DStr (sa_agent_id subagent));
     ("findings_count", DInt (len (split_char nl (findings result))));
     ("sources_count", DInt (len (sources result)))] ;;;
  ret result.

Definition execute_with_progress (w : world) (n : Z)
    (subagent : ResearchSubagent) (index : Z) : M SubagentResult :=
  execute_started w n subagent index ;;;
  execute_finished w n subagent index.

(** One action of the event loop on the slots of [asyncio.gather].
    Coroutines take their first slice in the order they were created; a
    coroutine whose first slice raised has finished; a finished coroutine
    is never run again. *)
Definition gather_step (w : world) (subagents : list ResearchSubagent)
    (st : list coro * log) (a : action) : list coro * log :=
  let '(slots, l) := st in
  let n := len subagents in
  match a with
  | StartNext =>
      match list_find (fun c => is_pending c = true) slots with
      | Some (i, _) =>
          match subagents !! i with
          | Some subagent =>
              match execute_started w n subagent (Z.of_nat i) l with
              | (l', Returned _) => (<[i := Awaiting]> slots, l')
              | (l', Raised e) => (<[i := Settled (Raised e)]> slots, l')
              end
          | None => st
          end
      | None => st
      end
  | Resume i =>
      match slots !! i, subagents !! i with
      | Some Awaiting, Some subagent =>
          match execute_finished w n subagent (Z.of_nat i) l with
          | (l', o) => (<[i := Settled o]> slots, l')
          end
      | _, _ => st
      end
  end.

(** When the schedule is used up the loop runs what is left, in creation
    order, until every coroutine has finished: [gather] returns only then. *)
Fixpoint drain (w : world) (n : Z) (index : nat)
    (subagents : list ResearchSubagent) (slots : list coro) (l : log)
    : log * list (outcome SubagentResult) :=
  match subagents, slots with
  | subagent :: subagents', c :: slots' =>
      let '(l1, o) :=
        match c with
        | Pending => execute_with_progress w n subagent (Z.of_nat index) l
        | Awaiting => execute_finished w n subagent (Z.of_nat index) l
        | Settled o => (l, o)
        end in
      let '(l2, os) := drain w n (S index) subagents' slots' l1 in
      (l2, o :: os)
  | _, _ => (l, [])
  end.

(** [asyncio.gather] with [return_exceptions=True]: the outcomes
    in the order of the coroutines. *)
Definition gather (w : world) (subagents : list ResearchSubagent)
    : M (list (outcome SubagentResult)) :=
  fun l =>
    let '(slots, l1) :=
      foldl (gather_step w subagents)
            (replicate (length subagents) Pending, l) (schedule w) in
    let '(l2, os) := drain w (len subagents) 0 subagents slots l1 in
    (l2, Returned os).

(** The loop over [enumerate(results)]: an exception is replaced by an
    error result built from [tasks[i]]. *)
Fixpoint valid_results_from (tasks : list string) (i : nat)
    (results : list (outcome SubagentResult))
    : outcome (list SubagentResult) :=
  match results with
  | [] => Returned []
  | result :: results' =>
      r ← match result with
          | Raised e =>
              match tasks !! i with
              | Some t =>
                  Returned {| agent_id := "subagent_" +:+ pretty i;
                              task := t;
                              summary := "Failed: " +:+ e;
                              findings := "Error: " +:+ e;
                              sources := [];
                              confidence := "low" |}
              | None => Raised "list index out of range"
              end
          | Returned r => Returned r
          end;
      rs ← valid_results_from tasks (S i) results';
      Returned (r :: rs)
  end.

Definition make_subagents (tasks : list string) : list ResearchSubagent :=
  imap (fun i task => {| sa_task := task;
                         sa_agent_id := "subagent_" +:+ pretty i |}) tasks.

Definition _execute_subagents_parallel (w : world) (tasks : list string)
    : M (list SubagentResult) :=
  let subagents := make_subagents tasks in
  results <- gather w subagents ;;
  lift (valid_results_from tasks 0 results).

(** What coroutine [index] ends with, read off a run of it on its own:
    the value or the exception that lands in its slot. *)
Definition coro_outcome (w : world) (n : Z) (subagent : ResearchSubagent)
    (index : nat) : outcome SubagentResult :=
  (execute_with_progress w n subagent (Z.of_nat index) []).2.

(** *** The workflow *)

(** [if len(plan.tasks) > settings.max_subagents:
       plan.tasks = plan.tasks[:settings.max_subagents]] *)
Definition enforce_max_subagents (w : world) (plan : ResearchPlan)
    : ResearchPlan :=
  if (len (tasks plan) >? max_subagents (settings w))%Z
  then {| tasks := slice_to (tasks plan) (max_subagents (settings w));
          rationale := rationale plan;
          estimated_duration := estimated_duration plan |}
  else plan.

(** The body of the [try] block of [research]. *)
Definition research_try (w : world) (query : string) : M ResearchResult :=
  _send_progress w "planning"
    "Analyzing query and creating research plan..." 10 [] ;;;
  plan <- lift (create_plan w query) ;;
  let plan := enforce_max_subagents w plan in
  _send_progress w "planning_complete"
    ("Plan created: " +:+ pretty (len (tasks plan))
     +:+ " research tasks identified") 20
    [("tasks", DList (tasks plan)); ("rationale", DStr (rationale plan))] ;;;
  _send_progress w "subagent_research"
    ("Spawning " +:+ pretty (len (tasks plan)) +:+ " research agents...")
    25 [] ;;;
  subagent_results <- _execute_subagents_parallel w (tasks plan) ;;
  _send_progress w "subagent_complete" "All research agents completed"
    70 [] ;;;
  _send_progress w "synthesis"
    "Synthesizing findings into comprehensive report..." 75 [] ;;;
  synthesis <- lift (synthesize w query subagent_results) ;;
  _send_progress w "citation"
    "Adding citations and creating bibliography..." 90 [] ;;;
  citation_result <- lift (add_citations w synthesis subagent_results) ;;
  let metadata := {| subagents_count := len (tasks plan);
                     sources_count := source_count citation_result;
                     duration_seconds := elapsed w |} in
  let result := {| query := query;
                   plan := plan;
                   subagent_results := subagent_results;
                   synthesis := synthesis;
                   result_cited_report := cited_report citation_result;
                   result_bibliography := bibliography citation_result;
                   metadata := metadata |} in
  _send_progress w "complete" "Research complete!" 100 [] ;;;
  ret result.

(** [research]: on any exception the error update is sent and the
    exception is raised again. *)
Definition research (w : world) (query : string) : M ResearchResult :=
  try_catch (research_try w query)
    (fun e =>
       _send_progress w "error" ("Research failed: " +:+ e) 0 [] ;;;
       raise e).

End Orchestrator.

(** ** utils/formatters.py *)

Module Formatters.
Import PyStr Models.

(** [str.isalnum] on one character below 256: the ASCII digits and
    letters, the Latin-1 letters, and the superscript digits, fractions
    and ordinal indicators that Unicode counts as numeric or alphabetic. *)
Definition is_alnum (c : ascii) : bool :=
  let n := nat_of_ascii c in
  ((48 <=? n) && (n <=? 57)) || ((65 <=? n) && (n <=? 90))
  || ((97 <=? n) && (n <=? 122))
  || (n =? 170) || (n =? 178) || (n =? 179) || (n =? 181) || (n =? 185)
  || (n =? 186) || ((188 <=? n) && (n <=? 190))
  || ((192 <=? n) && (n <=? 214)) || ((216 <=? n) && (n <=? 246))
  || ((248 <=? n) && (n <=? 255)).

Fixpoint map_chars (f : ascii -> ascii) (s : string) : string :=
  match s with
  | "" => ""
  | String c s' => String (f c) (map_chars f s')
  end.

(** [query_slug] of [save_result]:
    ["".join(c if c.isalnum() else "_" for c in result.query[:50])]. *)
Definition query_slug (query : string) : string :=
  map_chars (fun c => if is_alnum c then c else "_"%char) (str_take 50 query).

(** The names of the three files [save_result] writes, for a timestamp. *)
Definition result_file_names (timestamp query : string)
    : string * string * string :=
  let stem := "research_" +:+ timestamp +:+ "_" +:+ query_slug query in
  (stem +:+ ".md", stem +:+ ".json", stem +:+ ".html").

(** The head of the Markdown report; [created_at] is the formatted time
    of creation of the result. *)
Definition markdown_head (created_at : string) (result : ResearchResult)
    : string :=
  "# Research Report: " +:+ query result +:+ NL +:+ NL
  +:+ "*Generated: " +:+ created_at +:+ "*" +:+ NL +:+ NL
  +:+ "*Subagents used: " +:+ pretty (subagents_count (metadata result))
  +:+ " | "
  +:+ "Sources consulted: " +:+ pretty (sources_count (metadata result))
  +:+ "*" +:+ NL +:+ NL
  +:+ "---" +:+ NL +:+ NL
  +:+ result_cited_report result
  +:+ NL +:+ NL +:+ "---" +:+ NL +:+ NL.

(** The lines of one Citation in the Markdown report. *)
Definition markdown_citation (cite : Citation) : string :=
  pretty (index cite) +:+ ". " +:+ title cite +:+ NL
  +:+ "   URL: " +:+ url cite +:+ NL
  +:+ (match accessed_date cite with
       | "" => ""
       | d => "   Accessed: " +:+ d +:+ NL
       end)
  +:+ NL.

Definition format_as_markdown (created_at : string) (result : ResearchResult)
    : string :=
  let md := markdown_head created_at result in
  if negb (contains "Bibliography" (result_cited_report result))
     && negb (contains "References" (result_cited_report result))
  then foldl (fun md cite => md +:+ markdown_citation cite)
             (md +:+ "## Bibliography" +:+ NL +:+ NL)
             (result_bibliography result)
  else md.

End Formatters.

(** ** Worlds and texts used as test inputs *)

Module Scenarios.
Import PyStr Re Models Parsers Env Subagent.

(** A generation service that plans two tasks, an executor that fails on
    task [B], and an event loop that lets the second worker finish first. *)
Definition two_workers : world :=
  {| settings := {| max_subagents := 5; min_subagents := 3 |};
     llm_plan := fun _ =>
       Returned "<task>A</task><task>B</task><rationale>r</rationale>";
     executor := fun _ t =>
       if String.eqb t "B" then Raised "boom"
       else Returned {| output := Some (OutStr "see http://x.com");
                        intermediate_steps := [] |};
     llm_synthesis := fun _ _ => Returned "report";
     llm_citation := fun _ _ => Returned "report with no list of sources";
     progress_callback := fun _ => None;
     schedule := [StartNext; StartNext; Resume 1; Resume 0];
     current_date := "2025-01-01";
     elapsed := "1.0";
     list_of_set := remove_dups |}.

(** The same, with the workers finishing in order and a generation
    service that is down when the synthesis is asked for. *)
Definition synthesis_down : world :=
  {| settings := settings two_workers;
     llm_plan := llm_plan two_workers;
     executor := executor two_workers;
     llm_synthesis := fun _ _ => Raised "service unavailable";
     llm_citation := llm_citation two_workers;
     progress_callback := progress_callback two_workers;
     schedule := [StartNext; StartNext; Resume 0; Resume 1];
     current_date := current_date two_workers;
     elapsed := elapsed two_workers;
     list_of_set := list_of_set two_workers |}.

(** A configuration whose upper bound is negative. *)
Definition negative_bound : world :=
  {| settings := {| max_subagents := -2; min_subagents := 3 |};
     llm_plan := llm_plan two_workers;
     executor := executor two_workers;
     llm_synthesis := llm_synthesis two_workers;
     llm_citation := llm_citation two_workers;
     progress_callback := progress_callback two_workers;
     schedule := [];
     current_date := current_date two_workers;
     elapsed := elapsed two_workers;
     list_of_set := list_of_set two_workers |}.

(** A progress callback that raises on every update about a finished
    worker. *)
Definition touchy_callback : world :=
  {| settings := settings two_workers;
     llm_plan := llm_plan two_workers;
     executor := executor two_workers;
     llm_synthesis := llm_synthesis two_workers;
     llm_citation := llm_citation two_workers;
     progress_callback := fun u =>
       if String.eqb (phase u) "subagent_finished"
       then Some "display closed" else None;
     schedule := [];
     current_date := current_date two_workers;
     elapsed := elapsed two_workers;
     list_of_set := list_of_set two_workers |}.

(** A generation service that is down from the start. *)
Definition planning_down : world :=
  {| settings := settings two_workers;
     llm_plan := fun _ => Raised "rate limited";
     executor := executor two_workers;
     llm_synthesis := llm_synthesis two_workers;
     llm_citation := llm_citation two_workers;
     progress_callback := progress_callback two_workers;
     schedule := [];
     current_date := current_date two_workers;
     elapsed := elapsed two_workers;
     list_of_set := list_of_set two_workers |}.

(** A generation service whose cited report names no list of sources. *)
Definition plain_citation : world :=
  {| settings := settings two_workers;
     llm_plan := llm_plan two_workers;
     executor := executor two_workers;
     llm_synthesis := llm_synthesis two_workers;
     llm_citation := fun _ _ => Returned "report with no list at all";
     progress_callback := progress_callback two_workers;
     schedule := [];
     current_date := current_date two_workers;
     elapsed := elapsed two_workers;
     list_of_set := list_of_set two_workers |}.

Definition failing_worker : ResearchSubagent :=
  {| sa_task := "B"; sa_agent_id := "subagent_1" |}.

(** Two workers that both report [http://x.com]. *)
Definition shared_url_results : list SubagentResult :=
  [ {| agent_id := "subagent_0"; task := "A"; summary := "sa";
       findings := "fa"; sources := ["http://a.org"; "http://x.com"];
       confidence := "high" |};
    {| agent_id := "subagent_1"; task := "B"; summary := "sb";
       findings := "fb"; sources := ["http://x.com"; "http://b.org"];
       confidence := "medium" |} ].

(** A response in the format the citation prompt asks for, with two
    entries. *)
Definition two_entries : string :=
  "The report [Source 1]." +:+ NL
  +:+ NL
  +:+ "Bibliography:" +:+ NL
  +:+ "[1] First title" +:+ NL
  +:+ "    URL: http://a.com/x" +:+ NL
  +:+ "    Accessed: 2024-01-01" +:+ NL
  +:+ "[2] Second title" +:+ NL
  +:+ "    URL: http://b.com/y" +:+ NL
  +:+ "    Accessed: 2024-01-02".

(** A response whose list of sources is announced and left empty. *)
Definition heading_without_entries : string :=
  "The report." +:+ NL +:+ "Sources:" +:+ NL +:+ "none listed".

(** A response whose only entry is a bare URL. *)
Definition bare_url_entry : string :=
  "Bibliography:" +:+ NL +:+ "[1] http://a.com/x".

Definition six_tasks : ResearchPlan :=
  {| tasks := ["t1"; "t2"; "t3"; "t4"; "t5"; "t6"];
     rationale := "six angles";
     estimated_duration := None |}.

(** A result whose cited report carries no list of its own. *)
Definition plain_result : ResearchResult :=
  {| query := "What is X?";
     plan := {| tasks := ["A"]; rationale := "r";
                estimated_duration := None |};
     subagent_results := [];
     synthesis := "report";
     result_cited_report := "X is Y [Source 1].";
     result_bibliography :=
       [ {| index := 1; title := "http://x.com"; url := "http://x.com";
            accessed_date := "2025-01-01"; excerpt := None |};
         {| index := 2; title := "A page"; url := "http://y.com";
            accessed_date := ""; excerpt := None |} ];
     metadata := {| subagents_count := 1; sources_count := 2;
                    duration_seconds := "1.0" |} |}.

End Scenarios.

(** ** Notions used in the statements *)

Module Statements.
Import PyStr Re Models Parsers Env Subagent CitationAgent LeadResearcher.
Import Orchestrator.

(** The invariant of the event loop: a slot holds nothing yet, or its
    coroutine has passed its first update, or it holds what the coroutine
    ends with. *)
Definition slot_ok (w : world) (n : Z) (i : nat) (sa : ResearchSubagent)
    (c : coro) : Prop :=
  match c with
  | Pending => True
  | Awaiting => (execute_started w n sa (Z.of_nat i) []).2 = Returned tt
  | Settled o => o = coro_outcome w n sa i
  end.

Definition gather_inv (w : world) (subagents : list ResearchSubagent)
    (slots : list coro) : Prop :=
  length slots = length subagents
  ∧ ∀ i sa c, subagents !! i = Some sa → slots !! i = Some c →
              slot_ok w (len subagents) i sa c.

(** The claim C6 as stated: whenever the plan stage returns a plan, the
    plan used for the run has between [min_subagents] and [max_subagents]
    tasks. *)
Definition plan_within_bounds : Prop :=
  ∀ (w : world) (query : string) (plan : ResearchPlan),
    create_plan w query = Returned plan →
    (min_subagents (settings w)
       ≤ len (tasks (enforce_max_subagents w plan))
       ≤ max_subagents (settings w))%Z.

Definition meta_of (r : SubagentResult) (u : string) : SourceMeta :=
  {| meta_url := u; meta_task := task r; meta_agent_id := agent_id r |}.

(** The list and the map of the registry agree and the list has no
    repetition. *)
Definition registry_ok (acc : list string * gmap string SourceMeta) : Prop :=
  NoDup acc.1 ∧ ∀ u, u ∈ acc.1 ↔ is_Some (acc.2 !! u).

(** The result the registry takes the data of a URL from: the first one,
    in the order of the list, that reports it. *)
Definition first_reporter (u : string) (rs : list SubagentResult)
    : option (nat * SubagentResult) :=
  list_find (λ r, u ∈ sources r) rs.

(** The claim C4 as stated: with at least one source the bibliography is
    not empty, whatever the response. *)
Definition bibliography_never_empty : Prop :=
  ∀ (today text : string) (sources : list string),
    sources ≠ [] → parse_bibliography today text sources ≠ [].

(** An update sent for one worker: its phase, and its percent inside the
    range of the research stage. *)
Definition worker_update (u : ProgressUpdate) : Prop :=
  (phase u = "subagent_started" ∨ phase u = "subagent_finished")
  ∧ (25 ≤ percent u ≤ 70)%Z.

(** Consecutive values never go down. *)
Definition nondecreasing (ps : list Z) : Prop :=
  ∀ i a b, ps !! i = Some a → ps !! S i = Some b → (a ≤ b)%Z.

(** The values go up from [lo]. *)
Fixpoint ascending (lo : Z) (ps : list Z) : Prop :=
  match ps with
  | [] => True
  | p :: ps' => (lo ≤ p)%Z ∧ ascending p ps'
  end.

(** The claim C9 as stated, for runs that succeed: the percents of the
    updates of a run never go down, whatever the schedule. *)
Definition progress_monotone : Prop :=
  ∀ (w : world) (query : string) (l : log) (result : ResearchResult),
    Orchestrator.research w query [] = (l, Returned result) →
    nondecreasing (percent <$> l).

(** What [rmatch] computes, as a relation: [matches r s cs s' cs'] when [r]
    matches a prefix of [s], leaves [s'] and turns the groups [cs] into
    [cs']. *)
Inductive matches : regex → string → captures → string → captures → Prop :=
| matches_Eps s cs : matches Eps s cs s cs
| matches_Lit c s cs : matches (Lit c) (String c s) cs s cs
| matches_LitI c a s cs :
    lower_char a = lower_char c → matches (LitI c) (String a s) cs s cs
| matches_Cls (p : ascii → bool) a s cs :
    p a = true → matches (Cls p) (String a s) cs s cs
| matches_Cat r1 r2 s cs s1 cs1 s2 cs2 :
    matches r1 s cs s1 cs1 → matches r2 s1 cs1 s2 cs2 →
    matches (Cat r1 r2) s cs s2 cs2
| matches_Alt_l r1 r2 s cs s' cs' :
    matches r1 s cs s' cs' → matches (Alt r1 r2) s cs s' cs'
| matches_Alt_r r1 r2 s cs s' cs' :
    matches r2 s cs s' cs' → matches (Alt r1 r2) s cs s' cs'
| matches_Star_stop r s cs : matches (Star r) s cs s cs
| matches_Star_more r s cs s1 cs1 s2 cs2 :
    matches r s cs s1 cs1 → matches (Star r) s1 cs1 s2 cs2 →
    matches (Star r) s cs s2 cs2
| matches_LazyStar_stop r s cs : matches (LazyStar r) s cs s cs
| matches_LazyStar_more r s cs s1 cs1 s2 cs2 :
    matches r s cs s1 cs1 → matches (LazyStar r) s1 cs1 s2 cs2 →
    matches (LazyStar r) s cs s2 cs2
| matches_Grp n r s cs s' cs' :
    matches r s cs s' cs' →
    matches (Grp n r) s cs s'
      ((n, str_take (String.length s - String.length s') s) :: cs')
| matches_Eos s cs : at_end s = true → matches Eos s cs s cs.

(** A pattern without capturing group. *)
Fixpoint groupless (r : regex) : bool :=
  match r with
  | Cat r1 r2 | Alt r1 r2 => groupless r1 && groupless r2
  | Star r1 | LazyStar r1 => groupless r1
  | Grp _ _ => false
  | _ => true
  end.

(** An enumeration of a set yields members of the set only. *)
Definition yields_members (f : list string → list string) : Prop :=
  ∀ l x, x ∈ f l → x ∈ l.

(** The scheme a URL opens with. *)
Definition has_http_scheme (u : string) : Prop :=
  startswith u "http://" = true ∨ startswith u "https://" = true.

(** The result the coordinator returns at position [index] for task
    [t]: what the coroutine returned, or the error result built from the
    exception it raised. *)
Definition coordinator_result (w : world) (n : Z) (index : nat) (t : string)
    : SubagentResult :=
  match coro_outcome w n {| sa_task := t;
                            sa_agent_id := "subagent_" +:+ pretty index |}
                     index with
  | Returned r => r
  | Raised e =>
      {| agent_id := "subagent_" +:+ pretty index;
         task := t;
         summary := "Failed: " +:+ e;
         findings := "Error: " +:+ e;
         sources := [];
         confidence := "low" |}
  end.

(** The number of updates a coroutine has sent so far. *)
Definition updates_sent (c : coro) : nat :=
  match c with
  | Pending => 0
  | Awaiting => 1
  | Settled _ => 2
  end.

(** Two steps of the workflow that end alike, whatever was sent before. *)
Definition same_outcome {A} (m m' : M A) : Prop :=
  ∀ l l' : log, (m l).2 = (m' l').2.

(** Every character of a string passes a test. *)
Fixpoint all_chars (p : ascii → bool) (s : string) : bool :=
  match s with
  | "" => true
  | String c s' => p c && all_chars p s'
  end.

(** A string without newline. *)
Definition single_line (s : string) : Prop :=
  all_chars (λ c, negb (Ascii.eqb c nl)) s = true.

End Statements.

(** * Properties *)

Import PyStr Re Models Parsers Env Subagent CitationAgent LeadResearcher.
Import Orchestrator Statements.

(** ** The parsers on sample texts

    The values are those Python's [re] gives on the same texts. *)

Example plan_tasks_in_document_order :
  parse_research_plan
    ("<task> a </task><TASK>no</TASK><task>" +:+ NL +:+ "</task>"
     +:+ "<rationale> why" +:+ NL +:+ "</rationale><task>b</task>")
  = {| parsed_tasks := ["a"; "b"]; parsed_rationale := "why" |}.
Proof. by vm_compute. Qed.

Example bibliography_every_second_entry :
  (λ c, (index c, title c, url c, accessed_date c))
    <$> parse_bibliography "D"
          ("SOURCES: " +:+ NL +:+ " [1]x" +:+ NL +:+ "[2] y" +:+ NL
           +:+ "[3] z" +:+ NL) []
  = [(1%Z, "x", "x", ""); (3%Z, "z", "z", "")].
Proof. by vm_compute. Qed.

Example bibliography_url_before_title :
  (λ c, (index c, title c, url c, accessed_date c))
    <$> parse_bibliography "D"
          ("References" +:+ NL +:+ NL +:+ "[3]  URL: http://z" +:+ NL
           +:+ "Accessed: x" +:+ NL) []
  = [(3%Z, "http://z", "http://z", "x")].
Proof. by vm_compute. Qed.

Example summary_section :
  extract_summary
    ("intro" +:+ NL +:+ "# summary" +:+ NL +:+ "the gist" +:+ NL +:+ NL
     +:+ "## Next" +:+ NL +:+ "more")
  = "the gist".
Proof. by vm_compute. Qed.

Example summary_first_paragraph :
  extract_summary
    ("  " +:+ NL +:+ NL +:+ " para one " +:+ NL +:+ NL +:+ "para two")
  = "para one".
Proof. by vm_compute. Qed.

Example confidence_marker :
  _extract_confidence
    ("## Confidence Assessment" +:+ NL +:+ "Overall: HIGH because" +:+ NL)
  = "high"
  ∧ _extract_confidence "# confidence low: medium" = "medium"
  ∧ _extract_confidence "no marker" = "medium".
Proof. split_and!; by vm_compute. Qed.

Example urls_in_text :
  extract_sources_from_text (λ urls, urls)
    "a https://x.y/z%20q(1)!*, http://b.c/d?e=f#g https:/bad http://"
  = ["https://x.y/z%20q(1)!*,"; "http://b.c/d?e=f"].
Proof. by vm_compute. Qed.

(** ** The research worker *)

Lemma research_returns (w : world) (self : ResearchSubagent) :
  ∃ r, Subagent.research w self = Returned r ∧ task r = sa_task self.
Proof.
  unfold Subagent.research, try_except.
  destruct (Subagent.research_try w self) as [r|e] eqn:Htry.
  - exists r. split; [done|].
    unfold Subagent.research_try in Htry.
    destruct (executor w _ _) as [res|]; simpl in Htry; [|done].
    destruct (output res); simpl in Htry; [|done].
    by inversion Htry.
  - by eexists.
Qed.



(** ** The coordinator *)

Section Coordinator.
Variable w : world.

(** What a step returns does not depend on the updates sent before it. *)
Lemma execute_started_outcome n sa i (l : log) :
  (execute_started w n sa i l).2 = (execute_started w n sa i []).2.
Proof. reflexivity. Qed.

Lemma execute_finished_outcome n sa i (l : log) :
  (execute_finished w n sa i l).2 = (execute_finished w n sa i []).2.
Proof.
  unfold execute_finished, bind, lift.
  destruct (Subagent.research w sa) as [r|e]; [|done].
  unfold _send_progress. by destruct (progress_callback w _).
Qed.

Lemma coro_outcome_started_raised n sa i l l' e :
  execute_started w n sa (Z.of_nat i) l = (l', Raised e) →
  coro_outcome w n sa i = Raised e.
Proof.
  unfold coro_outcome, execute_with_progress, bind, execute_started,
    _send_progress.
  destruct (progress_callback w _); intros H; by simplify_eq.
Qed.

Lemma coro_outcome_finished n sa i l l' o :
  (execute_started w n sa (Z.of_nat i) []).2 = Returned tt →
  execute_finished w n sa (Z.of_nat i) l = (l', o) →
  coro_outcome w n sa i = o.
Proof.
  intros Hs Hf.
  pose proof (execute_finished_outcome n sa (Z.of_nat i) l) as Hl.
  rewrite Hf in Hl. simpl in Hl. rewrite Hl.
  unfold coro_outcome, execute_with_progress, bind.
  destruct (execute_started w n sa (Z.of_nat i) []) as [l0 o0].
  simpl in Hs. subst o0.
  apply execute_finished_outcome.
Qed.

Lemma coro_outcome_whole n sa i l :
  (execute_with_progress w n sa (Z.of_nat i) l).2 = coro_outcome w n sa i.
Proof.
  unfold coro_outcome, execute_with_progress, bind, execute_started,
    _send_progress.
  destruct (progress_callback w _); [done|].
  rewrite execute_finished_outcome. symmetry.
  by rewrite execute_finished_outcome.
Qed.

(** A value that comes out of a coroutine is about the coroutine's task. *)
Lemma coro_outcome_task n sa i r :
  coro_outcome w n sa i = Returned r → task r = sa_task sa.
Proof.
  unfold coro_outcome, execute_with_progress, execute_finished, bind, lift.
  destruct (execute_started w n sa (Z.of_nat i) []) as [l0 [[]|e]]; [|done].
  destruct (research_returns w sa) as (r0 & -> & Ht).
  destruct (_send_progress w _ _ _ _ l0) as [l1 [[]|e]]; [|done].
  simpl. by intros [= <-].
Qed.

Lemma gather_inv_init subagents :
  gather_inv w subagents (replicate (length subagents) Pending).
Proof.
  split; [by rewrite length_replicate|].
  intros i sa c _ [-> _]%lookup_replicate. exact I.
Qed.

Lemma gather_inv_insert subagents slots i sa c :
  gather_inv w subagents slots →
  subagents !! i = Some sa →
  slot_ok w (len subagents) i sa c →
  gather_inv w subagents (<[i := c]> slots).
Proof.
  intros [Hlen Hok] Hsa Hc. split; [by rewrite length_insert|].
  intros j sa' c' Hsa' Hc'.
  destruct (decide (i = j)) as [->|Hne].
  - rewrite list_lookup_insert_eq in Hc'.
    + simplify_eq. done.
    + rewrite Hlen. by eapply lookup_lt_Some.
  - rewrite list_lookup_insert_ne in Hc' by done. eauto.
Qed.

Lemma gather_step_inv subagents slots l a :
  gather_inv w subagents slots →
  gather_inv w subagents (gather_step w subagents (slots, l) a).1.
Proof.
  intros Hinv. unfold gather_step. destruct a as [|i].
  - destruct (list_find _ slots) as [[i c]|] eqn:Hfind; [|done].
    destruct (subagents !! i) as [sa|] eqn:Hsa; [|done].
    destruct (execute_started w _ sa (Z.of_nat i) l) as [l' [[]|e]] eqn:Hst;
      cbn [fst]; eapply gather_inv_insert; eauto; unfold slot_ok.
    + by rewrite <- (execute_started_outcome _ _ _ l), Hst.
    + symmetry. by eapply coro_outcome_started_raised.
  - destruct (slots !! i) as [[| |o]|] eqn:Hc; try done.
    destruct (subagents !! i) as [sa|] eqn:Hsa; [|done].
    destruct (execute_finished w _ sa (Z.of_nat i) l) as [l' o] eqn:Hf.
    cbn [fst]. eapply gather_inv_insert; eauto. unfold slot_ok.
    symmetry. eapply coro_outcome_finished; [|done].
    destruct Hinv as [_ Hok]. exact (Hok i sa Awaiting Hsa Hc).
Qed.

Lemma gather_schedule_inv subagents sched slots l :
  gather_inv w subagents slots →
  gather_inv w subagents (foldl (gather_step w subagents) (slots, l) sched).1.
Proof.
  revert slots l. induction sched as [|a sched IH]; intros slots l Hinv.
  - done.
  - cbn [foldl].
    pose proof (gather_step_inv subagents slots l a Hinv) as Hstep.
    destruct (gather_step w subagents (slots, l) a) as [slots' l'].
    by apply IH.
Qed.

(** Running what is left settles every slot with its coroutine's end. *)
Lemma drain_outcomes n subagents : ∀ index slots l,
  length slots = length subagents →
  (∀ j sa c, subagents !! j = Some sa → slots !! j = Some c →
             slot_ok w n (index + j) sa c) →
  (drain w n index subagents slots l).2
    = imap (λ j sa, coro_outcome w n sa (index + j)) subagents.
Proof.
  induction subagents as [|sa subagents IH]; intros index slots l Hlen Hok.
  - done.
  - destruct slots as [|c slots]; [done|].
    simpl in Hlen. injection Hlen as Hlen.
    assert (Hrest : (drain w n (S index) subagents slots
                        (match c with
                         | Pending =>
                             execute_with_progress w n sa (Z.of_nat index) l
                         | Awaiting =>
                             execute_finished w n sa (Z.of_nat index) l
                         | Settled o => (l, o)
                         end).1).2
                    = imap (λ j sa, coro_outcome w n sa (S index + j))
                           subagents).
    { apply IH; [done|]. intros j sa' c' Hsa' Hc'.
      replace (S index + j) with (index + S j) by lia.
      by apply Hok. }
    assert (Hhead : (match c with
                     | Pending =>
                         execute_with_progress w n sa (Z.of_nat index) l
                     | Awaiting =>
                         execute_finished w n sa (Z.of_nat index) l
                     | Settled o => (l, o)
                     end).2 = coro_outcome w n sa (index + 0)).
    { replace (index + 0) with index by lia.
      specialize (Hok 0 sa c eq_refl eq_refl).
      replace (index + 0) with index in Hok by lia.
      destruct c as [| |o]; simpl in *.
      - apply coro_outcome_whole.
      - destruct (execute_finished w n sa (Z.of_nat index) l) as [l' o] eqn:Hf.
        simpl. symmetry. by eapply coro_outcome_finished.
      - done. }
    simpl.
    destruct (match c with
              | Pending => execute_with_progress w n sa (Z.of_nat index) l
              | Awaiting => execute_finished w n sa (Z.of_nat index) l
              | Settled o => (l, o)
              end) as [l1 o1].
    simpl in *.
    destruct (drain w n (S index) subagents slots l1) as [l2 os].
    simpl in *. subst o1 os. f_equal.
    apply imap_ext. intros j sa' _. simpl. f_equal. lia.
Qed.

(** [gather] returns, and what it returns is fixed by the coroutines
    alone: the schedule does not show. *)
Lemma gather_outcomes subagents l :
  (gather w subagents l).2
    = Returned (imap (λ j sa, coro_outcome w (len subagents) sa j) subagents).
Proof.
  unfold gather.
  pose proof (gather_schedule_inv subagents (schedule w) _ l
                (gather_inv_init subagents)) as [Hlen Hok].
  destruct (foldl _ _ (schedule w)) as [slots l1]. simpl in *.
  pose proof (drain_outcomes (len subagents) subagents 0 slots l1 Hlen) as Hd.
  destruct (drain w (len subagents) 0 subagents slots l1) as [l2 os].
  simpl in *. f_equal. apply Hd. intros j sa c Hsa Hc. by apply Hok.
Qed.

End Coordinator.

Lemma make_subagents_lookup (tasks : list string) i sa :
  make_subagents tasks !! i = Some sa →
  tasks !! i = Some (sa_task sa).
Proof.
  unfold make_subagents. rewrite list_lookup_imap.
  destruct (tasks !! i); simpl; [|done]. by intros [= <-].
Qed.

Lemma valid_results_from_aligned (tasks : list string) : ∀ os i,
  (∀ j o, os !! j = Some o →
          ∃ t, tasks !! (i + j) = Some t ∧ ∀ r, o = Returned r → task r = t) →
  ∃ rs, valid_results_from tasks i os = Returned rs
        ∧ length rs = length os
        ∧ ∀ j r, rs !! j = Some r → tasks !! (i + j) = Some (task r).
Proof.
  induction os as [|o os IH]; intros i Hos.
  - exists []. by split_and!.
  - destruct (IH (S i)) as (rs & Hrs & Hlen & Hal).
    { intros j o' Ho'. replace (S i + j) with (i + S j) by lia.
      by apply Hos. }
    destruct (Hos 0 o eq_refl) as (t & Ht & Hr).
    replace (i + 0) with i in Ht by lia.
    cbn [valid_results_from]. rewrite Hrs.
    destruct o as [r|e].
    + exists (r :: rs). split_and!; [done|by simpl; f_equal|].
      intros [|j] r' Hj; simpl in Hj.
      * simplify_eq. replace (i + 0) with i by lia.
        by rewrite (Hr r' eq_refl).
      * replace (i + S j) with (S i + j) by lia. by apply Hal.
    + rewrite Ht. eexists (_ :: rs). split_and!; [done|by simpl; f_equal|].
      intros [|j] r' Hj; simpl in Hj.
      * simplify_eq. replace (i + 0) with i by lia. done.
      * replace (i + S j) with (S i + j) by lia. by apply Hal.
Qed.

(** What the coordinator returns: the [valid_results] built from the ends
    of the coroutines, none of which mentions the schedule. *)
Lemma execute_subagents_parallel_outcome (w : world) (tasks : list string)
    (l : log) :
  (_execute_subagents_parallel w tasks l).2
    = valid_results_from tasks 0
        (imap (λ j sa, coro_outcome w (len (make_subagents tasks)) sa j)
              (make_subagents tasks)).
Proof.
  unfold _execute_subagents_parallel, bind, lift.
  pose proof (gather_outcomes w (make_subagents tasks) l) as Hg.
  destruct (gather w (make_subagents tasks) l) as [l1 o1].
  simpl in Hg. by subst o1.
Qed.


(** ** The plan stage *)

Lemma slice_to_nonneg {A} (l : list A) (stop : Z) :
  (0 ≤ stop)%Z → slice_to l stop = take (Z.to_nat stop) l.
Proof.
  intros H. unfold slice_to.
  destruct (Z.leb_spec 0 stop); [done|lia].
Qed.

Lemma enforce_max_subagents_tasks (w : world) (plan : ResearchPlan) :
  (0 ≤ max_subagents (settings w))%Z →
  tasks (enforce_max_subagents w plan)
    = take (Z.to_nat (max_subagents (settings w))) (tasks plan).
Proof.
  intros Hmax. unfold enforce_max_subagents, len.
  destruct (Z.gtb_spec (Z.of_nat (length (tasks plan)))
              (max_subagents (settings w))); simpl.
  - by apply slice_to_nonneg.
  - symmetry. apply take_ge. lia.
Qed.

(** C5: with a bound that is a count (not negative), a plan with more
    tasks than [max_subagents] is cut to exactly [max_subagents] tasks,
    the first ones in their order; a plan within the bound is unchanged. *)
Theorem enforce_max_subagents_clamps (w : world) (plan : ResearchPlan) :
  (0 ≤ max_subagents (settings w))%Z →
  ((len (tasks plan) > max_subagents (settings w))%Z →
     len (tasks (enforce_max_subagents w plan)) = max_subagents (settings w)
     ∧ tasks (enforce_max_subagents w plan)
         = take (Z.to_nat (max_subagents (settings w))) (tasks plan)
     ∧ rationale (enforce_max_subagents w plan) = rationale plan)
  ∧ ((len (tasks plan) ≤ max_subagents (settings w))%Z →
     enforce_max_subagents w plan = plan).
Proof.
  intros Hmax. split.
  - intros Hgt. rewrite enforce_max_subagents_tasks by done.
    split_and!; [|done|].
    + unfold len in *. rewrite length_take. lia.
    + unfold enforce_max_subagents.
      by destruct (len (tasks plan) >? max_subagents (settings w))%Z.
  - intros Hle. unfold enforce_max_subagents.
    destruct (Z.gtb_spec (len (tasks plan)) (max_subagents (settings w)));
      [lia|done].
Qed.

Lemma enforce_max_subagents_clamps_witness :
  (0 ≤ max_subagents (settings Scenarios.two_workers))%Z
  ∧ (len (tasks Scenarios.six_tasks)
       > max_subagents (settings Scenarios.two_workers))%Z
  ∧ tasks (enforce_max_subagents Scenarios.two_workers Scenarios.six_tasks)
      = ["t1"; "t2"; "t3"; "t4"; "t5"].
Proof.
  assert (H0 : (0 ≤ max_subagents (settings Scenarios.two_workers))%Z)
    by (simpl; lia).
  assert (H1 : (len (tasks Scenarios.six_tasks)
                  > max_subagents (settings Scenarios.two_workers))%Z)
    by (vm_compute; reflexivity).
  split_and!; [exact H0|exact H1|].
  destruct (enforce_max_subagents_clamps Scenarios.two_workers
              Scenarios.six_tasks H0) as [Hcut _].
  destruct (Hcut H1) as (_ & -> & _). reflexivity.
Defined.

(** Nothing enforces the lower bound: the generation service answers with
    two tasks, the bounds are 3 and 5, and the run uses the two tasks. *)
Lemma plan_below_min_subagents : ¬ plan_within_bounds.
Proof.
  intros H.
  specialize (H Scenarios.two_workers "q" _ eq_refl).
  vm_compute in H. destruct H as [H _]. by apply H.
Qed.

(** C6, amended: the plan stage rejects no answer of the generation
    service, and with a bound that is a count the plan used for the run is
    the parsed plan cut to its first [max_subagents] tasks, so it has at
    most [max_subagents] of them; no lower bound is promised. *)
Theorem plan_at_most_max_subagents (w : world) (query content : string) :
  (0 ≤ max_subagents (settings w))%Z →
  llm_plan w query = Returned content →
  ∃ plan,
    create_plan w query = Returned plan
    ∧ tasks plan = parsed_tasks (parse_research_plan content)
    ∧ tasks (enforce_max_subagents w plan)
        = take (Z.to_nat (max_subagents (settings w))) (tasks plan)
    ∧ (len (tasks (enforce_max_subagents w plan))
         ≤ max_subagents (settings w))%Z.
Proof.
  intros Hmax Hllm. unfold create_plan. rewrite Hllm. simpl.
  eexists. split_and!; [done|done|by apply enforce_max_subagents_tasks|].
  rewrite enforce_max_subagents_tasks by done.
  unfold len. rewrite length_take. lia.
Qed.

Lemma plan_at_most_max_subagents_witness :
  (0 ≤ max_subagents (settings Scenarios.two_workers))%Z
  ∧ llm_plan Scenarios.two_workers "q"
      = Returned "<task>A</task><task>B</task><rationale>r</rationale>"
  ∧ ∃ plan,
      create_plan Scenarios.two_workers "q" = Returned plan
      ∧ tasks plan
          = parsed_tasks (parse_research_plan
              "<task>A</task><task>B</task><rationale>r</rationale>")
      ∧ tasks (enforce_max_subagents Scenarios.two_workers plan)
          = take (Z.to_nat (max_subagents (settings Scenarios.two_workers)))
                 (tasks plan)
      ∧ (len (tasks (enforce_max_subagents Scenarios.two_workers plan))
           ≤ max_subagents (settings Scenarios.two_workers))%Z.
Proof.
  assert (H0 : (0 ≤ max_subagents (settings Scenarios.two_workers))%Z)
    by (simpl; lia).
  split_and!; [exact H0|reflexivity|].
  exact (plan_at_most_max_subagents Scenarios.two_workers "q" _ H0 eq_refl).
Defined.

(** ** The source registry *)

Lemma nonempty_true (s : string) : nonempty s = true ↔ s ≠ "".
Proof. destruct s; simpl; split; congruence. Qed.

Lemma register_url_ok r acc u :
  registry_ok acc → registry_ok (register_url r acc u).
Proof.
  destruct acc as [all m]. intros [Hnd Hdom]. unfold register_url.
  destruct (nonempty u); [|done].
  destruct (m !! u) eqn:Hu; [done|]. simpl in *.
  split; simpl.
  - apply NoDup_app. split_and!; [done| |apply NoDup_singleton].
    intros v Hv ->%list_elem_of_singleton.
    apply Hdom in Hv. rewrite Hu in Hv. by destruct Hv.
  - intros v. rewrite elem_of_app, list_elem_of_singleton, Hdom.
    destruct (decide (u = v)) as [->|Hne].
    + rewrite lookup_insert_eq. split; [by eexists|by right].
    + rewrite lookup_insert_ne by done. split; [|by left].
      by intros [?|?].
Qed.

Lemma register_url_lookup r acc u v :
  (register_url r acc u).2 !! v
    = match acc.2 !! v with
      | Some x => Some x
      | None => if decide (v = u ∧ u ≠ "") then Some (meta_of r u) else None
      end.
Proof.
  destruct acc as [all m]. unfold register_url.
  destruct (nonempty u) eqn:Hne.
  - apply nonempty_true in Hne.
    destruct (m !! u) eqn:Hu; simpl.
    + destruct (m !! v) eqn:Hv; [done|].
      case_decide as Hd; [|done]. destruct Hd as [-> _]. congruence.
    + destruct (decide (u = v)) as [->|Hn].
      * rewrite lookup_insert_eq, Hu. by case_decide as Hd; [|destruct Hd].
      * rewrite lookup_insert_ne by done.
        destruct (m !! v); [done|].
        case_decide as Hd; [|done]. by destruct Hd as [-> _].
  - simpl. destruct (m !! v); [done|].
    case_decide as Hd; [|done]. destruct Hd as [_ Hu].
    apply nonempty_true in Hu. congruence.
Qed.

(** Registering the sources of one result. *)
Lemma register_sources_ok r srcs : ∀ acc,
  registry_ok acc → registry_ok (foldl (register_url r) acc srcs).
Proof.
  induction srcs as [|u srcs IH]; intros acc Hok; [done|].
  simpl. by apply IH, register_url_ok.
Qed.

Lemma register_sources_lookup r srcs v : ∀ acc,
  (foldl (register_url r) acc srcs).2 !! v
    = match acc.2 !! v with
      | Some x => Some x
      | None => if decide (v ∈ srcs ∧ v ≠ "") then Some (meta_of r v) else None
      end.
Proof.
  induction srcs as [|u srcs IH]; intros acc.
  - cbn [foldl]. destruct (acc.2 !! v); [done|].
    case_decide as Hd; [|done]. destruct Hd as [H _].
    by apply elem_of_nil in H.
  - cbn [foldl]. rewrite IH, register_url_lookup. clear IH.
    destruct (acc.2 !! v); [done|].
    destruct (decide (v = u ∧ u ≠ "")) as [[-> Hu]|Hn].
    + case_decide as Hd; [done|]. destruct Hd. split; [|done].
      apply elem_of_cons. by left.
    + destruct (decide (v ∈ srcs ∧ v ≠ "")) as [[Hin Hv]|Hn2].
      * case_decide as Hd; [done|]. destruct Hd. split; [|done].
        apply elem_of_cons. by right.
      * case_decide as Hd; [|done]. destruct Hd as [Hin Hv].
        apply elem_of_cons in Hin as [->|Hin]; [by destruct Hn|by destruct Hn2].
Qed.

Lemma compile_fold_ok rs : ∀ acc,
  registry_ok acc →
  registry_ok
    (foldl (λ acc result, foldl (register_url result) acc (sources result))
           acc rs).
Proof.
  induction rs as [|r rs IH]; intros acc Hok; [done|].
  simpl. by apply IH, register_sources_ok.
Qed.

Lemma compile_fold_lookup rs v : ∀ acc,
  (foldl (λ acc result, foldl (register_url result) acc (sources result))
         acc rs).2 !! v
    = match acc.2 !! v with
      | Some x => Some x
      | None =>
          if decide (v ≠ "")
          then (λ p, meta_of p.2 v) <$> first_reporter v rs
          else None
      end.
Proof.
  unfold first_reporter.
  induction rs as [|r rs IH]; intros acc.
  - cbn [foldl]. destruct (acc.2 !! v); [done|]. by case_decide.
  - cbn [foldl]. rewrite IH, register_sources_lookup. clear IH.
    destruct (acc.2 !! v); [done|].
    cbn [list_find].
    destruct (decide (v ≠ "")) as [Hv|Hv].
    + destruct (decide (v ∈ sources r)) as [Hin|Hin].
      * case_decide as Hd; [done|]. by destruct Hd.
      * case_decide as Hd; [by destruct Hd|].
        by destruct (list_find _ rs) as [[k rk]|].
    + case_decide as Hd; [by destruct Hd|done].
Qed.

Lemma compile_sources_ok rs : registry_ok (_compile_sources rs).
Proof.
  apply compile_fold_ok. split; simpl; [apply NoDup_nil_2|].
  intros u. rewrite lookup_empty. split.
  - by intros ?%elem_of_nil.
  - by intros [? ?].
Qed.

Lemma compile_sources_lookup rs u :
  u ≠ "" →
  (_compile_sources rs).2 !! u
    = (λ p, meta_of p.2 u) <$> first_reporter u rs.
Proof.
  intros Hu. unfold _compile_sources.
  rewrite compile_fold_lookup. cbn [snd]. rewrite lookup_empty.
  by case_decide.
Qed.

Lemma NoDup_occurs_once (l : list string) (u : string) :
  NoDup l → u ∈ l → length (filter (λ x, x = u) l) = 1.
Proof.
  induction 1 as [|x l Hx Hnd IH]; intros Hin.
  - by apply elem_of_nil in Hin.
  - apply elem_of_cons in Hin as [->|Hin].
    + rewrite filter_cons_True by done. simpl. f_equal.
      destruct (filter (λ y, y = x) l) as [|y k] eqn:Hf; [done|].
      assert (Hy : y ∈ filter (λ y, y = x) l) by (rewrite Hf; left).
      apply list_elem_of_filter in Hy as [-> Hy]. done.
    + rewrite filter_cons_False; [by apply IH|]. by intros ->.
Qed.

Lemma coordinator_schedule_independent (w : world) (tasks : list string)
    (s1 s2 : list action) (l1 l2 : log) :
  (_execute_subagents_parallel (with_schedule w s1) tasks l1).2
    = (_execute_subagents_parallel (with_schedule w s2) tasks l2).2.
Proof. by rewrite !execute_subagents_parallel_outcome. Qed.

(** C7: when two different results report the same (non-empty) URL, the
    registry lists that URL exactly once, and the data stored for it come
    from the first result, in task order, that reports it; the registry
    built from what the coordinator returns is the same under every
    schedule of the event loop. *)
Theorem registry_keeps_first_reporter (rs : list SubagentResult)
    (u : string) (i j : nat) (ri rj : SubagentResult) :
  u ≠ "" → i ≠ j →
  rs !! i = Some ri → rs !! j = Some rj →
  u ∈ sources ri → u ∈ sources rj →
  length (filter (λ x, x = u) (_compile_sources rs).1) = 1
  ∧ (∃ k rk,
        rs !! k = Some rk ∧ u ∈ sources rk
        ∧ (∀ k' r', k' < k → rs !! k' = Some r' → u ∉ sources r')
        ∧ k ≤ i ∧ k ≤ j
        ∧ (_compile_sources rs).2 !! u
            = Some {| meta_url := u;
                      meta_task := task rk;
                      meta_agent_id := agent_id rk |})
  ∧ (∀ w tasks s1 s2 (l1 l2 : log) rs1 rs2,
        (_execute_subagents_parallel (with_schedule w s1) tasks l1).2
          = Returned rs1 →
        (_execute_subagents_parallel (with_schedule w s2) tasks l2).2
          = Returned rs2 →
        _compile_sources rs1 = _compile_sources rs2).
Proof.
  intros Hu Hij Hi Hj Hui Huj.
  pose proof (compile_sources_ok rs) as [Hnd Hdom].
  pose proof (compile_sources_lookup rs u Hu) as Hlook.
  destruct (list_find_elem_of (λ r, u ∈ sources r) rs ri) as [[k rk] Hfind].
  { by eapply list_elem_of_lookup_2. }
  { done. }
  unfold first_reporter in Hlook. rewrite Hfind in Hlook. simpl in Hlook.
  apply list_find_Some in Hfind as (Hk & Hrk & Hfirst).
  split_and!.
  - apply NoDup_occurs_once; [done|]. apply Hdom. by rewrite Hlook.
  - exists k, rk. split_and!; try done.
    + intros k' r' Hlt Hr'. by eapply Hfirst.
    + destruct (decide (k ≤ i)) as [|Hn]; [done|].
      exfalso. eapply (Hfirst i ri); [done|lia|done].
    + destruct (decide (k ≤ j)) as [|Hn]; [done|].
      exfalso. eapply (Hfirst j rj); [done|lia|done].
  - intros w tasks s1 s2 l1 l2 rs1 rs2 H1 H2.
    rewrite (coordinator_schedule_independent w tasks s1 s2 l1 l2) in H1.
    congruence.
Qed.

Lemma registry_keeps_first_reporter_witness :
  "http://x.com" ≠ "" ∧ 0 ≠ 1
  ∧ (_compile_sources Scenarios.shared_url_results).1
      = ["http://a.org"; "http://x.com"; "http://b.org"]
  ∧ length (filter (λ x, x = "http://x.com")
              (_compile_sources Scenarios.shared_url_results).1) = 1.
Proof.
  split_and!; [done|done|by vm_compute|].
  refine (proj1 (registry_keeps_first_reporter Scenarios.shared_url_results
                   "http://x.com" 0 1 _ _ _ _ eq_refl eq_refl _ _)).
  - done.
  - done.
  - simpl. apply elem_of_cons. right. apply elem_of_cons. by left.
  - simpl. apply elem_of_cons. by left.
Defined.

(** ** The bibliography *)

Lemma enumerate_length {A} (l : list A) : ∀ start,
  length (enumerate start l) = length l.
Proof. induction l as [|x l IH]; intros start; simpl; [done|by rewrite IH]. Qed.

Lemma enumerate_lookup {A} (l : list A) : ∀ start i x,
  l !! i = Some x →
  enumerate start l !! i = Some ((start + Z.of_nat i)%Z, x).
Proof.
  induction l as [|y l IH]; intros start i x Hi; [done|].
  destruct i as [|i]; simpl in *.
  - simplify_eq. do 2 f_equal. lia.
  - rewrite (IH _ _ _ Hi). do 2 f_equal. lia.
Qed.

Lemma parse_bibliography_without_section (today text : string)
    (sources : list string) :
  search bibliography_pattern text = None →
  parse_bibliography today text sources = fallback_citations today sources.
Proof. intros Hnone. unfold parse_bibliography. by rewrite Hnone. Qed.

Lemma fallback_citations_length (today : string) (sources : list string) :
  length (fallback_citations today sources) = length sources.
Proof. unfold fallback_citations. by rewrite length_fmap, enumerate_length. Qed.



(** A heading with no numbered entry after it: the section is found, the
    fallback is not taken, and nothing is parsed. *)
Lemma heading_without_entries_gives_empty_bibliography :
  ¬ bibliography_never_empty.
Proof.
  intros H.
  apply (H "2025-01-01" Scenarios.heading_without_entries ["http://x.com"]).
  - done.
  - by vm_compute.
Qed.

(** C4, amended: when the heading pattern finds no bibliography section
    and at least one source is registered, the bibliography is not empty:
    it has one entry per source; when a section is found, the bibliography
    is made of the numbered entries found in it, whatever their number. *)
Theorem bibliography_nonempty_without_section (today text : string)
    (sources : list string) :
  sources ≠ [] →
  (search bibliography_pattern text = None →
     parse_bibliography today text sources ≠ []
     ∧ length (parse_bibliography today text sources) = length sources)
  ∧ (∀ bib_match, search bibliography_pattern text = Some bib_match →
       parse_bibliography today text sources
         = citation_of_match
             <$> finditer citation_pattern (group bib_match 1)).
Proof.
  intros Hne. split.
  - intros Hnone. rewrite parse_bibliography_without_section by done.
    pose proof (fallback_citations_length today sources) as Hlen.
    split; [|done]. intros Hnil. rewrite Hnil in Hlen.
    destruct sources; [done|]. discriminate Hlen.
  - intros bib_match Hsome. unfold parse_bibliography. by rewrite Hsome.
Qed.

Lemma bibliography_nonempty_without_section_witness :
  ["http://a.org"] ≠ []
  ∧ search bibliography_pattern "plain report" = None
  ∧ parse_bibliography "2025-01-01" "plain report" ["http://a.org"] ≠ [].
Proof.
  assert (H0 : ["http://a.org"] ≠ ([] : list string)) by done.
  assert (H : search bibliography_pattern "plain report" = None)
    by (vm_compute; reflexivity).
  split_and!; [exact H0|exact H|].
  exact (proj1 (proj1 (bibliography_nonempty_without_section "2025-01-01"
                         "plain report" ["http://a.org"] H0) H)).
Defined.

(** C2: on a response with two entries in the format the prompt asks
    for, the parser returns one Citation, the first: the match of an
    entry takes the bracket that opens the next one. *)
Theorem two_entries_parse_to_one :
  parse_bibliography "2025-01-01" Scenarios.two_entries
      ["http://a.com/x"; "http://b.com/y"]
    = [ {| index := 1;
           title := "First title";
           url := "http://a.com/x";
           accessed_date := "2024-01-01";
           excerpt := None |} ]
  ∧ m_rest <$> finditer citation_pattern
                 ("[1] a" +:+ NL +:+ "[2] b")
    = ["2] b"].
Proof. split; by vm_compute. Qed.



(** ** Progress updates *)

Lemma start_percent_range (n i : Z) :
  (0 ≤ i < n)%Z →
  (25 ≤ start_percent n i ≤ finish_percent n i)%Z
  ∧ (finish_percent n i ≤ 70)%Z.
Proof.
  intros Hi. unfold start_percent, finish_percent.
  assert (0 ≤ i * 45 / n)%Z by (apply Z.div_pos; lia).
  assert (i * 45 / n ≤ (i + 1) * 45 / n)%Z by (apply Z.div_le_mono; lia).
  assert ((i + 1) * 45 / n ≤ 45)%Z by (apply Z.div_le_upper_bound; lia).
  lia.
Qed.

Section Updates.
Variable w : world.

Lemma bind_returned {A B} (m : M A) (f : A → M B) l l' b :
  bind m f l = (l', Returned b) →
  ∃ l1 a, m l = (l1, Returned a) ∧ f a l1 = (l', Returned b).
Proof.
  unfold bind. destruct (m l) as [l1 [a|e]]; [|done]. eauto.
Qed.

Lemma send_progress_returned ph msg pc d l l' :
  _send_progress w ph msg pc d l = (l', Returned tt) →
  ∃ u, l' = l ++ [u] ∧ phase u = ph ∧ percent u = pc.
Proof.
  unfold _send_progress. intros [= <- _]. by eexists.
Qed.

Lemma execute_started_log n sa i l :
  (0 ≤ i < n)%Z →
  ∃ u, (execute_started w n sa i l).1 = l ++ [u]
       ∧ worker_update u ∧ percent u = start_percent n i.
Proof.
  intros Hi. eexists. split; [reflexivity|]. split; [|done].
  split; [by left|]. simpl. pose proof (start_percent_range n i Hi). lia.
Qed.

Lemma execute_finished_log n sa i l :
  (0 ≤ i < n)%Z →
  ∃ es, (execute_finished w n sa i l).1 = l ++ es
        ∧ Forall worker_update es
        ∧ Forall (λ u, percent u = finish_percent n i) es.
Proof.
  intros Hi. unfold execute_finished, bind, lift.
  destruct (Subagent.research w sa) as [r|e].
  - unfold _send_progress. destruct (progress_callback w _);
      (eexists [_]; split; [reflexivity|]; split;
       [|by repeat constructor]);
      (constructor; [|done]; split; [by right|]; simpl;
       pose proof (start_percent_range n i Hi); lia).
  - exists []. by rewrite app_nil_r.
Qed.

Lemma execute_with_progress_log n sa i l :
  (0 ≤ i < n)%Z →
  ∃ es, (execute_with_progress w n sa i l).1 = l ++ es
        ∧ Forall worker_update es.
Proof.
  intros Hi. unfold execute_with_progress, bind.
  destruct (execute_started_log n sa i l Hi) as (u & Hl & Hu & _).
  destruct (execute_started w n sa i l) as [l1 [[]|e]]; simpl in Hl; subst l1.
  - destruct (execute_finished_log n sa i (l ++ [u]) Hi) as (es & Hl & Hes & _).
    exists (u :: es). split.
    + rewrite Hl. by rewrite <- app_assoc.
    + by constructor.
  - exists [u]. split; [done|]. by constructor.
Qed.

Lemma gather_step_log subagents slots l a :
  ∃ es, (gather_step w subagents (slots, l) a).2 = l ++ es
        ∧ Forall worker_update es.
Proof.
  assert (Hnone : ∃ es, l = l ++ es ∧ Forall worker_update es).
  { exists []. by rewrite app_nil_r. }
  unfold gather_step. destruct a as [|i].
  - destruct (list_find _ slots) as [[i c]|]; [|done].
    destruct (subagents !! i) as [sa|] eqn:Hsa; [|done].
    destruct (execute_started_log (len subagents) sa (Z.of_nat i) l)
      as (u & Hl & Hu & _).
    { apply lookup_lt_Some in Hsa. unfold len. lia. }
    destruct (execute_started w _ sa (Z.of_nat i) l) as [l' [[]|e]];
      simpl in *; subst l'; exists [u]; split; try done; by constructor.
  - destruct (slots !! i) as [[| |o]|]; try done.
    destruct (subagents !! i) as [sa|] eqn:Hsa; [|done].
    destruct (execute_finished_log (len subagents) sa (Z.of_nat i) l)
      as (es & Hl & Hes & _).
    { apply lookup_lt_Some in Hsa. unfold len. lia. }
    destruct (execute_finished w _ sa (Z.of_nat i) l) as [l' o'].
    simpl in *. eauto.
Qed.

Lemma gather_schedule_log subagents sched : ∀ slots l,
  ∃ es, (foldl (gather_step w subagents) (slots, l) sched).2 = l ++ es
        ∧ Forall worker_update es.
Proof.
  induction sched as [|a sched IH]; intros slots l.
  - exists []. by rewrite app_nil_r.
  - cbn [foldl].
    destruct (gather_step_log subagents slots l a) as (es1 & Hl1 & Hes1).
    destruct (gather_step w subagents (slots, l) a) as [slots1 l1].
    simpl in Hl1. subst l1.
    destruct (IH slots1 (l ++ es1)) as (es2 & Hl2 & Hes2).
    exists (es1 ++ es2). split.
    + rewrite Hl2. by rewrite <- app_assoc.
    + by apply Forall_app.
Qed.

Lemma drain_log n subagents : ∀ index slots l,
  (Z.of_nat (index + length subagents) ≤ n)%Z →
  ∃ es, (drain w n index subagents slots l).1 = l ++ es
        ∧ Forall worker_update es.
Proof.
  induction subagents as [|sa subagents IH]; intros index slots l Hn.
  - exists []. by rewrite app_nil_r.
  - destruct slots as [|c slots].
    { exists []. by rewrite app_nil_r. }
    simpl in Hn.
    assert (Hi : (0 ≤ Z.of_nat index < n)%Z) by lia.
    assert (Hhead : ∃ es,
              (match c with
               | Pending => execute_with_progress w n sa (Z.of_nat index) l
               | Awaiting => execute_finished w n sa (Z.of_nat index) l
               | Settled o => (l, o)
               end).1 = l ++ es ∧ Forall worker_update es).
    { destruct c as [| |o].
      - by apply execute_with_progress_log.
      - destruct (execute_finished_log n sa (Z.of_nat index) l Hi)
          as (es & ? & ? & _). eauto.
      - exists []. by rewrite app_nil_r. }
    destruct Hhead as (es1 & Hl1 & Hes1).
    cbn [drain].
    destruct (match c with
              | Pending => execute_with_progress w n sa (Z.of_nat index) l
              | Awaiting => execute_finished w n sa (Z.of_nat index) l
              | Settled o => (l, o)
              end) as [l1 o1].
    simpl in Hl1. subst l1.
    destruct (IH (S index) slots (l ++ es1)) as (es2 & Hl2 & Hes2).
    { simpl. lia. }
    destruct (drain w n (S index) subagents slots (l ++ es1)) as [l2 os].
    simpl in *. subst l2.
    exists (es1 ++ es2). split.
    + by rewrite <- app_assoc.
    + by apply Forall_app.
Qed.

(** The coordinator only adds updates about workers to the log. *)
Lemma execute_subagents_parallel_log tasks l :
  ∃ es, (_execute_subagents_parallel w tasks l).1 = l ++ es
        ∧ Forall worker_update es.
Proof.
  unfold _execute_subagents_parallel, bind, lift, gather.
  destruct (gather_schedule_log (make_subagents tasks) (schedule w)
              (replicate (length (make_subagents tasks)) Pending) l)
    as (es1 & Hl1 & Hes1).
  destruct (foldl _ _ (schedule w)) as [slots l1].
  simpl in Hl1. subst l1.
  destruct (drain_log (len (make_subagents tasks)) (make_subagents tasks)
              0 slots (l ++ es1)) as (es2 & Hl2 & Hes2).
  { unfold len. simpl. lia. }
  destruct (drain w _ 0 (make_subagents tasks) slots (l ++ es1)) as [l2 os].
  simpl in *. subst l2.
  exists (es1 ++ es2). split.
  - by rewrite <- app_assoc.
  - by apply Forall_app.
Qed.

End Updates.

Lemma ascending_weaken lo lo' ps :
  (lo' ≤ lo)%Z → ascending lo ps → ascending lo' ps.
Proof. destruct ps; simpl; [done|]. intros ? [? ?]. split; [lia|done]. Qed.

Lemma ascending_app lo ps qs hi :
  ascending lo ps → Forall (λ p, (p ≤ hi)%Z) ps → (lo ≤ hi)%Z →
  ascending hi qs → ascending lo (ps ++ qs).
Proof.
  revert lo. induction ps as [|p ps IH]; intros lo Hps Hhi Hlo Hqs.
  - simpl. by eapply ascending_weaken.
  - simpl in *. destruct Hps as [Hp Hps].
    apply Forall_cons in Hhi as [Hphi Hhi].
    split; [done|]. by apply IH.
Qed.

Lemma ascending_nondecreasing lo ps : ascending lo ps → nondecreasing ps.
Proof.
  revert lo. induction ps as [|p ps IH]; intros lo Hps i a b Ha Hb.
  - done.
  - destruct Hps as [_ Hps]. destruct i as [|i]; simpl in *.
    + simplify_eq. destruct ps as [|q ps]; simpl in *; [done|].
      simplify_eq. by destruct Hps.
    + by eapply IH.
Qed.

Section Workflow.
Variable w : world.

Lemma lift_returned {A} (o : outcome A) (l l' : log) a :
  lift o l = (l', Returned a) → l' = l ∧ o = Returned a.
Proof. unfold lift. by intros [= -> ->]. Qed.

(** The updates of a run that reaches its end: the seven of the workflow
    around those the coordinator added. *)
Lemma research_try_log query l l' result :
  research_try w query l = (l', Returned result) →
  ∃ tasks lpre es,
    (_execute_subagents_parallel w tasks lpre).1 = lpre ++ es
    ∧ percent <$> l'
      = (percent <$> l) ++ [10; 20; 25]%Z ++ (percent <$> es)
        ++ [70; 75; 90; 100]%Z
    ∧ Forall worker_update es.
Proof.
  unfold research_try. intros H.
  apply bind_returned in H as (l1 & [] & H1 & H).
  apply send_progress_returned in H1 as (u1 & -> & _ & Hp1).
  apply bind_returned in H as (l2 & plan0 & H2 & H).
  apply lift_returned in H2 as [-> _].
  apply bind_returned in H as (l3 & [] & H3 & H).
  apply send_progress_returned in H3 as (u2 & -> & _ & Hp2).
  apply bind_returned in H as (l4 & [] & H4 & H).
  apply send_progress_returned in H4 as (u3 & -> & _ & Hp3).
  apply bind_returned in H as (l5 & rs & H5 & H).
  destruct (execute_subagents_parallel_log w
              (tasks (enforce_max_subagents w plan0))
              (((l ++ [u1]) ++ [u2]) ++ [u3])) as (es & Hl5 & Hes).
  pose proof Hl5 as Hrun.
  rewrite H5 in Hl5. simpl in Hl5. subst l5.
  apply bind_returned in H as (l6 & [] & H6 & H).
  apply send_progress_returned in H6 as (u4 & -> & _ & Hp4).
  apply bind_returned in H as (l7 & [] & H7 & H).
  apply send_progress_returned in H7 as (u5 & -> & _ & Hp5).
  apply bind_returned in H as (l8 & syn & H8 & H).
  apply lift_returned in H8 as [-> _].
  apply bind_returned in H as (l9 & [] & H9 & H).
  apply send_progress_returned in H9 as (u6 & -> & _ & Hp6).
  apply bind_returned in H as (l10 & cit & H10 & H).
  apply lift_returned in H10 as [-> _].
  apply bind_returned in H as (l11 & [] & H11 & H).
  apply send_progress_returned in H11 as (u7 & -> & _ & Hp7).
  unfold ret in H. injection H as <- <-.
  eexists _, _, es. split_and!; [exact Hrun| |done].
  rewrite !fmap_app. simpl. rewrite <- !app_assoc. simpl.
  by rewrite Hp1, Hp2, Hp3, Hp4, Hp5, Hp6, Hp7.
Qed.

(** A run that fails ends with the error update, at percent 0. *)
Lemma research_failed_log query l l' e :
  Orchestrator.research w query l = (l', Raised e) →
  ∃ u, last l' = Some u ∧ phase u = "error" ∧ percent u = 0%Z.
Proof.
  unfold Orchestrator.research, try_catch.
  destruct (research_try w query l) as [l1 [r|e1]]; [done|].
  unfold bind, _send_progress, raise.
  destruct (progress_callback w _); intros [= <- _];
    rewrite last_snoc; by eexists.
Qed.

End Workflow.

Section Sequential.
Variable w : world.

Lemma execute_with_progress_ascending n sa i l :
  (0 ≤ i < n)%Z →
  ∃ es, (execute_with_progress w n sa i l).1 = l ++ es
        ∧ ascending (start_percent n i) (percent <$> es)
        ∧ Forall (λ p, (p ≤ finish_percent n i)%Z) (percent <$> es).
Proof.
  intros Hi. pose proof (start_percent_range n i Hi) as Hr.
  unfold execute_with_progress, bind.
  destruct (execute_started_log w n sa i l Hi) as (u & Hl & _ & Hu).
  destruct (execute_started w n sa i l) as [l1 [[]|e]]; simpl in Hl; subst l1.
  - destruct (execute_finished_log w n sa i (l ++ [u]) Hi)
      as (es & Hl & _ & Hes).
    exists (u :: es). split_and!.
    + rewrite Hl. by rewrite <- app_assoc.
    + simpl. rewrite Hu. split; [lia|]. clear Hl.
      assert (Hfrom : ∀ lo, (lo ≤ finish_percent n i)%Z →
                ascending lo (percent <$> es)).
      { induction Hes as [|u' es Hu' _ IH]; intros lo Hlo; simpl; [done|].
        rewrite Hu'. split; [done|]. by apply IH. }
      apply Hfrom. lia.
    + simpl. rewrite Hu. constructor; [lia|]. clear Hl.
      induction Hes as [|u' es Hu' _ IH]; simpl; constructor; [lia|done].
  - exists [u]. simpl. rewrite Hu. split_and!; [done|lia|done|].
    constructor; [lia|done].
Qed.

(** Left to itself the loop runs the workers one after the other, and
    their updates go up from the start of the research stage. *)
Lemma drain_pending_ascending n subagents : ∀ index l,
  (Z.of_nat (index + length subagents) ≤ n)%Z →
  ∃ es, (drain w n index subagents
           (replicate (length subagents) Pending) l).1 = l ++ es
        ∧ ascending (start_percent n (Z.of_nat index)) (percent <$> es).
Proof.
  induction subagents as [|sa subagents IH]; intros index l Hn.
  - exists []. by rewrite app_nil_r.
  - simpl in Hn.
    assert (Hi : (0 ≤ Z.of_nat index < n)%Z) by lia.
    destruct (execute_with_progress_ascending n sa (Z.of_nat index) l Hi)
      as (es1 & Hl1 & Hasc1 & Hle1).
    cbn [length replicate drain].
    destruct (execute_with_progress w n sa (Z.of_nat index) l) as [l1 o1].
    simpl in Hl1. subst l1.
    destruct (IH (S index) (l ++ es1)) as (es2 & Hl2 & Hasc2).
    { simpl. lia. }
    destruct (drain w n (S index) subagents _ (l ++ es1)) as [l2 os].
    simpl in *. subst l2.
    exists (es1 ++ es2). split; [by rewrite <- app_assoc|].
    rewrite fmap_app.
    eapply ascending_app; [done|done| |].
    + pose proof (start_percent_range n (Z.of_nat index) Hi). lia.
    + replace (finish_percent n (Z.of_nat index))
        with (start_percent n (Z.of_nat (S index))); [done|].
      unfold start_percent, finish_percent. do 3 f_equal. lia.
Qed.

Lemma execute_subagents_sequential tasks l es :
  schedule w = [] →
  (_execute_subagents_parallel w tasks l).1 = l ++ es →
  ascending 25 (percent <$> es).
Proof.
  intros Hsched. unfold _execute_subagents_parallel, bind, lift, gather.
  rewrite Hsched. cbn [foldl].
  destruct (drain_pending_ascending (len (make_subagents tasks))
              (make_subagents tasks) 0 l) as (es' & Hl & Hasc).
  { unfold len. simpl. lia. }
  destruct (drain w _ 0 (make_subagents tasks) _ l) as [l2 os].
  simpl in *. subst l2. intros ->%app_inv_head.
  exact Hasc.
Qed.

End Sequential.




(** A run whose synthesis fails: the updates climb to 75 and the last
    one, the error update, is at 0. *)
Example failed_run_ends_at_zero :
  percent <$> (Orchestrator.research Scenarios.synthesis_down "q" []).1
    = [10; 20; 25; 25; 47; 47; 70; 70; 75; 0]%Z
  ∧ (Orchestrator.research Scenarios.synthesis_down "q" []).2
    = Raised "service unavailable".
Proof. split; by vm_compute. Qed.

(** * Further properties of the code *)

(** ** The matcher against its relation *)

Lemma rmatch_sound {R : Type} (r : regex) :
  ∀ s cs (k : string → captures → option R) x,
    rmatch r s cs k = Some x →
    ∃ s' cs', matches r s cs s' cs' ∧ k s' cs' = Some x.
Proof.
  induction r as [|c|c|p|r1 IH1 r2 IH2|r1 IH1 r2 IH2|r1 IH1|r1 IH1|n r1 IH1|];
    intros s cs k x H; cbn [rmatch] in H.
  - eauto using matches.
  - destruct s as [|a s]; [done|].
    destruct (Ascii.eqb_spec a c) as [->|]; [|done]. eauto using matches.
  - destruct s as [|a s]; [done|].
    destruct (Ascii.eqb_spec (lower_char a) (lower_char c)); [|done].
    eauto using matches.
  - destruct s as [|a s]; [done|].
    destruct (p a) eqn:Hp; [|done]. eauto using matches.
  - apply IH1 in H as (s1 & cs1 & H1 & H).
    apply IH2 in H as (s2 & cs2 & H2 & H).
    eauto using matches.
  - destruct (rmatch r1 s cs k) eqn:H1.
    + injection H as ->. apply IH1 in H1 as (s' & cs' & ? & ?).
      eauto using matches.
    + apply IH2 in H as (s' & cs' & ? & ?). eauto using matches.
  - revert H. generalize (String.length s) at 1. intros fuel.
    revert s cs. induction fuel as [|fuel IHf]; intros s cs H.
    + eauto using matches.
    + match type of H with
      | match ?m with _ => _ end = _ => destruct m eqn:Hm
      end.
      * injection H as ->. apply IH1 in Hm as (s1 & cs1 & Hr & Hm).
        destruct (String.length s1 <? String.length s); [|done].
        apply IHf in Hm as (s2 & cs2 & ? & ?). eauto using matches.
      * eauto using matches.
  - revert H. generalize (String.length s) at 1. intros fuel.
    revert s cs. induction fuel as [|fuel IHf]; intros s cs H.
    + eauto using matches.
    + destruct (k s cs) eqn:Hk.
      * injection H as ->. eauto using matches.
      * apply IH1 in H as (s1 & cs1 & Hr & Hm).
        destruct (String.length s1 <? String.length s); [|done].
        apply IHf in Hm as (s2 & cs2 & ? & ?). eauto using matches.
  - apply IH1 in H as (s' & cs' & ? & ?). eauto using matches.
  - destruct (at_end s) eqn:He; [|done]. eauto using matches.
Qed.

Lemma str_app_cons (a : ascii) (q s : string) :
  String a q +:+ s = String a (q +:+ s).
Proof. reflexivity. Qed.

Lemma str_app_assoc (p q s : string) : (p +:+ q) +:+ s = p +:+ (q +:+ s).
Proof.
  induction p as [|a p IH]; [done|]. rewrite !str_app_cons. by rewrite IH.
Qed.

Lemma str_app_length (p s : string) :
  String.length (p +:+ s) = String.length p + String.length s.
Proof.
  induction p as [|a p IH]; [done|]. rewrite str_app_cons. simpl.
  by rewrite IH.
Qed.

Lemma matches_suffix r s cs s' cs' :
  matches r s cs s' cs' → ∃ pre, s = pre +:+ s'.
Proof.
  induction 1;
    try (by exists "");
    try (by eexists (String _ ""));
    try done.
  - destruct IHmatches1 as [p1 ->]. destruct IHmatches2 as [p2 ->].
    exists (p1 +:+ p2). by rewrite str_app_assoc.
  - destruct IHmatches1 as [p1 ->]. destruct IHmatches2 as [p2 ->].
    exists (p1 +:+ p2). by rewrite str_app_assoc.
  - destruct IHmatches1 as [p1 ->]. destruct IHmatches2 as [p2 ->].
    exists (p1 +:+ p2). by rewrite str_app_assoc.
Qed.

Lemma matches_groupless r s cs s' cs' :
  matches r s cs s' cs' → groupless r = true → cs' = cs.
Proof.
  induction 1; simpl; intros Hg; try done.
  - apply andb_true_iff in Hg as [? ?].
    rewrite IHmatches2, IHmatches1; done.
  - apply andb_true_iff in Hg as [? ?]. auto.
  - apply andb_true_iff in Hg as [? ?]. auto.
  - rewrite IHmatches2, IHmatches1; done.
  - rewrite IHmatches2, IHmatches1; done.
Qed.

Lemma matches_Cat_inv r1 r2 s cs s2 cs2 :
  matches (Cat r1 r2) s cs s2 cs2 →
  ∃ s1 cs1, matches r1 s cs s1 cs1 ∧ matches r2 s1 cs1 s2 cs2.
Proof. inversion 1; subst. eauto. Qed.

Lemma matches_Str p s cs s' cs' :
  matches (Str p) s cs s' cs' → s = p +:+ s' ∧ cs' = cs.
Proof.
  revert s cs. induction p as [|c p IH]; intros s cs H; simpl in H.
  - by inversion H; subst.
  - apply matches_Cat_inv in H as (s1 & cs1 & H1 & H2).
    inversion H1; subst. apply IH in H2 as [-> ->]. done.
Qed.

Lemma matches_StrI p s cs s' cs' :
  matches (StrI p) s cs s' cs' →
  ∃ q, s = q +:+ s' ∧ lower q = lower p ∧ cs' = cs.
Proof.
  revert s cs. induction p as [|c p IH]; intros s cs H; simpl in H.
  - inversion H; subst. by exists "".
  - apply matches_Cat_inv in H as (s1 & cs1 & H1 & H2).
    inversion H1; subst. apply IH in H2 as (q & -> & Hq & ->).
    exists (String a q). split_and!; [done| |done]. simpl. congruence.
Qed.

Lemma str_take_app (q s : string) :
  str_take (String.length (q +:+ s) - String.length s) (q +:+ s) = q.
Proof.
  rewrite str_app_length.
  replace (String.length q + String.length s - String.length s)
    with (String.length q) by lia.
  induction q as [|c q IH].
  - by destruct s.
  - rewrite str_app_cons. simpl. by rewrite IH.
Qed.

Lemma search_from_Some r : ∀ s pos m,
  search_from r pos s = Some m →
  ∃ pre s0, s = pre +:+ s0 ∧ match_here r (pos + String.length pre) s0 = Some m.
Proof.
  induction s as [|c s IH]; intros pos m H; simpl in H.
  - destruct (match_here r pos "") eqn:Hm; [|done]. injection H as ->.
    exists "", "". by rewrite Nat.add_0_r.
  - destruct (match_here r pos (String c s)) eqn:Hm.
    + injection H as ->. exists "", (String c s). by rewrite Nat.add_0_r.
    + apply IH in H as (pre & s0 & -> & H).
      exists (String c pre), s0. split; [done|].
      simpl. by replace (pos + S (String.length pre))
        with (S pos + String.length pre) by lia.
Qed.

Lemma match_here_Some r pos s m :
  match_here r pos s = Some m →
  matches r s [] (m_rest m) (m_groups m)
  ∧ m_text m = str_take (String.length s - String.length (m_rest m)) s.
Proof.
  unfold match_here. intros H.
  apply rmatch_sound in H as (s' & cs' & Hm & [= <-]). done.
Qed.

Ltac split_Cat :=
  repeat match goal with
         | H : matches (Cat _ _) _ _ _ _ |- _ =>
             let s1 := fresh "s" in
             let cs1 := fresh "cs" in
             let H1 := fresh "Hm" in
             apply matches_Cat_inv in H as (s1 & cs1 & H1 & H)
         end.

(** ** The research worker's extraction *)

(** The confidence read from a text is always one of the three levels,
    in lower case: the level written after the marker, whatever its
    case, and "medium" without a marker. *)
Lemma extract_confidence_level (output : string) :
  _extract_confidence output = "high"
  ∨ _extract_confidence output = "medium"
  ∨ _extract_confidence output = "low".
Proof.
  unfold _extract_confidence.
  destruct (search confidence_pattern output) as [m|] eqn:Hs; [|by right; left].
  apply search_from_Some in Hs as (pre & s0 & _ & Hm).
  apply match_here_Some in Hm as [Hm _].
  unfold group. destruct (m_groups m) as [|g gs] eqn:Hg.
  { unfold confidence_pattern in Hm. cbn [Seq] in Hm. split_Cat.
    inversion Hm; subst. inversion Hm7; subst. }
  unfold confidence_pattern in Hm. cbn [Seq] in Hm. split_Cat.
  inversion Hm; subst; clear Hm.
  inversion Hm7 as [| | | | | | | | | | |n r sa csa sb csb Halt| ]; subst.
  simpl.
  assert (Hcap : ∃ q, s6 = q +:+ m_rest m
                 ∧ (lower q = "high" ∨ lower q = "medium" ∨ lower q = "low")).
  { inversion Halt as [| | | | |? ? ? ? ? ? Hl|? ? ? ? ? ? Hr| | | | | | ]; subst.
    - apply (matches_StrI "high") in Hl as (q & -> & Hq & _). eauto.
    - inversion Hr as [| | | | |? ? ? ? ? ? Hl|? ? ? ? ? ? Hr2| | | | | | ]; subst.
      + apply (matches_StrI "medium") in Hl as (q & -> & Hq & _). eauto.
      + apply (matches_StrI "low") in Hr2 as (q & -> & Hq & _). eauto. }
  destruct Hcap as (q & -> & Hq). rewrite str_take_app.
  destruct Hq as [->|[->| ->]]; auto.
Qed.

Lemma finditer_from_elem r : ∀ s skip pos m,
  m ∈ finditer_from r skip pos s →
  ∃ pre s0 pos', s = pre +:+ s0 ∧ match_here r pos' s0 = Some m.
Proof.
  induction s as [|c s IH]; intros skip pos m Hm; cbn [finditer_from] in Hm.
  - destruct skip; [|by apply elem_of_nil in Hm].
    destruct (match_here r pos "") as [m0|] eqn:H0;
      [|by apply elem_of_nil in Hm].
    apply list_elem_of_singleton in Hm as ->. by exists "", "", pos.
  - destruct skip as [|k].
    + destruct (match_here r pos (String c s)) as [m0|] eqn:H0.
      * apply elem_of_cons in Hm as [->|Hm].
        { by exists "", (String c s), pos. }
        apply IH in Hm as (pre & s0 & pos' & -> & Hm).
        by exists (String c pre), s0, pos'.
      * apply IH in Hm as (pre & s0 & pos' & -> & Hm).
        by exists (String c pre), s0, pos'.
    + apply IH in Hm as (pre & s0 & pos' & -> & Hm).
      by exists (String c pre), s0, pos'.
Qed.

Lemma matches_text r s cs s' cs' :
  matches r s cs s' cs' →
  ∃ pre, s = pre +:+ s'
         ∧ str_take (String.length s - String.length s') s = pre.
Proof.
  intros [pre ->]%matches_suffix. exists pre. by rewrite str_take_app.
Qed.

Lemma url_pattern_text s s' cs' :
  matches url_pattern s [] s' cs' →
  ∃ rest, s = "http://" +:+ rest +:+ s' ∨ s = "https://" +:+ rest +:+ s'.
Proof.
  unfold url_pattern. cbn [Seq]. intros H. split_Cat.
  apply (matches_Str "http") in Hm as [-> ->].
  apply (matches_Str "://") in Hm1 as [-> ->].
  inversion H; subst. apply matches_suffix in Hm2 as [rest ->].
  exists rest.
  inversion Hm0 as [| | | | |? ? ? ? ? ? Hs|? ? ? ? ? ? He| | | | | | ]; subst.
  - inversion Hs as [| | |p a ? ? Hp| | | | | | | | | ]; subst.
    unfold existsb in Hp. simpl in Hp. rewrite orb_false_r in Hp.
    apply Ascii.eqb_eq in Hp as ->. by right.
  - inversion He; subst. by left.
Qed.

(** Every URL the worker's extraction finds in a text begins with
    "http://" or "https://". *)
Lemma findall_url_scheme (text u : string) :
  u ∈ findall0 url_pattern text → has_http_scheme u.
Proof.
  unfold has_http_scheme, findall0, finditer. intros (m & -> & Hm)%list_elem_of_fmap.
  apply finditer_from_elem in Hm as (pre & s0 & pos & _ & Hm).
  apply match_here_Some in Hm as [Hm Htext].
  destruct (url_pattern_text _ _ _ Hm) as [rest [Hs|Hs]];
    rewrite Htext, Hs.
  - left. rewrite <- str_app_assoc, str_take_app.
    unfold startswith. apply String.prefix_correct. by destruct rest.
  - right. rewrite <- str_app_assoc, str_take_app.
    unfold startswith. apply String.prefix_correct. by destruct rest.
Qed.


Lemma extract_sources_from_text_scheme (f : list string → list string)
    (text u : string) :
  yields_members f → u ∈ extract_sources_from_text f text → has_http_scheme u.
Proof.
  intros Hf Hu. unfold extract_sources_from_text in Hu.
  apply Hf in Hu. by eapply findall_url_scheme.
Qed.

Lemma research_sources_scheme (w : world) (self : ResearchSubagent)
    (r : SubagentResult) (u : string) :
  yields_members (list_of_set w) →
  Subagent.research w self = Returned r →
  u ∈ sources r →
  has_http_scheme u.
Proof.
  intros Hf Hr Hu.
  { unfold Subagent.research, try_except, Subagent.research_try in Hr.
    destruct (executor w _ _) as [res|e]; simpl in Hr.
    - destruct (output res) as [raw|]; simpl in Hr.
      + injection Hr as <-. simpl in Hu.
        apply Hf in Hu. apply elem_of_app in Hu as [Hu|Hu].
        * unfold _extract_sources in Hu. apply Hf in Hu.
          apply list_elem_of_In, in_flat_map in Hu as (step & _ & Hu).
          destruct (step_tool step) as [tool|]; [|done].
          destruct (contains "search" (lower tool)); [|done].
          apply list_elem_of_In in Hu.
          by eapply extract_sources_from_text_scheme.
        * by eapply extract_sources_from_text_scheme.
      + injection Hr as <-. by apply elem_of_nil in Hu.
    - injection Hr as <-. by apply elem_of_nil in Hu. }
Qed.

(** When the enumeration of a set yields members of the set only, every
    source a worker reports begins with "http://" or "https://"; in
    particular no source is the empty string. *)
Theorem worker_sources_have_scheme (w : world) (self : ResearchSubagent)
    (r : SubagentResult) (u : string) :
  yields_members (list_of_set w) →
  Subagent.research w self = Returned r →
  u ∈ sources r →
  has_http_scheme u ∧ u ≠ "".
Proof.
  intros Hf Hr Hu.
  pose proof (research_sources_scheme w self r u Hf Hr Hu) as Hs.
  split; [done|]. intros ->. by destruct Hs.
Qed.

Lemma worker_sources_have_scheme_witness :
  yields_members (list_of_set Scenarios.two_workers)
  ∧ (∃ r, Subagent.research Scenarios.two_workers
            {| sa_task := "A"; sa_agent_id := "subagent_0" |} = Returned r
          ∧ "http://x.com" ∈ sources r)
  ∧ has_http_scheme "http://x.com" ∧ "http://x.com" ≠ "".
Proof.
  assert (Hf : yields_members (list_of_set Scenarios.two_workers)).
  { intros l x. simpl. by rewrite elem_of_remove_dups. }
  assert (Hin : "http://x.com"
                ∈ sources {| agent_id := "subagent_0"; task := "A";
                             summary := "see http://x.com";
                             findings := "see http://x.com";
                             sources := ["http://x.com"];
                             confidence := "medium" |}).
  { simpl. apply elem_of_cons. by left. }
  split_and!; [exact Hf|by eexists|..];
    apply (worker_sources_have_scheme Scenarios.two_workers
             {| sa_task := "A"; sa_agent_id := "subagent_0" |} _
             "http://x.com" Hf eq_refl Hin).
Defined.

(** ** Stripping *)

Lemma rstrip_cons_nonspace (c : ascii) (s : string) :
  is_space c = false → rstrip (String c s) = String c (rstrip s).
Proof. intros Hc. simpl. rewrite Hc. by destruct (rstrip s). Qed.

Lemma rstrip_idemp (s : string) : rstrip (rstrip s) = rstrip s.
Proof.
  induction s as [|c s IH]; [done|]. simpl.
  destruct (rstrip s) as [|d r] eqn:Hr.
  - destruct (is_space c) eqn:Hc; [done|]. simpl. by rewrite Hc.
  - simpl. simpl in IH. destruct (rstrip r) as [|e r'] eqn:Hr'.
    + destruct (is_space d); [done|]. by injection IH as ->.
    + by rewrite IH.
Qed.

Lemma lstrip_head (s : string) :
  lstrip s = "" ∨ ∃ c s', lstrip s = String c s' ∧ is_space c = false.
Proof.
  induction s as [|c s IH]; [by left|]. simpl.
  destruct (is_space c) eqn:Hc; [done|]. right. eauto.
Qed.

Lemma lstrip_nonspace (c : ascii) (s : string) :
  is_space c = false → lstrip (String c s) = String c s.
Proof. intros Hc. simpl. by rewrite Hc. Qed.

(** Stripping twice is stripping once. *)
Lemma strip_idemp (s : string) : strip (strip s) = strip s.
Proof.
  unfold strip. destruct (lstrip_head s) as [->|(c & s' & -> & Hc)]; [done|].
  rewrite rstrip_cons_nonspace by done.
  rewrite lstrip_nonspace by done.
  rewrite <- rstrip_cons_nonspace by done. apply rstrip_idemp.
Qed.

(** ** The plan parser *)

(** No task of a parsed plan is empty, and none has white space at
    either end. *)
Theorem parsed_tasks_stripped_nonempty (content t : string) :
  t ∈ parsed_tasks (parse_research_plan content) → t ≠ "" ∧ strip t = t.
Proof.
  unfold parse_research_plan. simpl.
  intros (raw & -> & Hraw)%list_elem_of_fmap.
  apply list_elem_of_In, filter_In in Hraw as [_ Hne].
  split; [|apply strip_idemp].
  intros Hs. by rewrite Hs in Hne.
Qed.

Lemma parsed_tasks_stripped_nonempty_witness :
  "b" ∈ parsed_tasks (parse_research_plan "<task> </task><task> b </task>")
  ∧ "b" ≠ "" ∧ strip "b" = "b".
Proof.
  assert (H : "b" ∈ parsed_tasks
                      (parse_research_plan "<task> </task><task> b </task>")).
  { replace (parsed_tasks
               (parse_research_plan "<task> </task><task> b </task>"))
      with ["b"] by (by vm_compute).
    apply elem_of_cons. by left. }
  split; [exact H|].
  exact (parsed_tasks_stripped_nonempty _ _ H).
Defined.

Lemma prefix_app (p rest : string) : String.prefix p (p +:+ rest) = true.
Proof.
  induction p as [|c p IH]; [by destruct rest|].
  rewrite str_app_cons. simpl. by destruct (ascii_dec c c).
Qed.

Lemma contains_prefix (p s : string) :
  String.prefix p s = true → contains p s = true.
Proof. intros H. destruct s; cbn [contains]; by rewrite H. Qed.

Lemma contains_app (p pre s : string) :
  contains p s = true → contains p (pre +:+ s) = true.
Proof.
  intros H. induction pre as [|c pre IH]; [done|].
  rewrite str_app_cons. cbn [contains]. rewrite IH. apply orb_true_r.
Qed.

Lemma contains_middle (p pre rest : string) :
  contains p (pre +:+ p +:+ rest) = true.
Proof. apply contains_app, contains_prefix, prefix_app. Qed.

(** A match of a pattern made of an opening tag, a lazy body in a group
    and a closing tag: the text at the match holds both tags. *)
Lemma tagged_pattern_text (open close s s' : string) cs' :
  matches (Seq [Str open; Grp 1 (LazyStar Any); Str close]) s [] s' cs' →
  ∃ body, s = open +:+ body +:+ close +:+ s'.
Proof.
  cbn [Seq]. intros H. split_Cat.
  apply matches_Str in Hm as [-> ->].
  apply matches_Str in Hm1 as [-> ->].
  inversion H; subst.
  apply matches_suffix in Hm0 as [body ->]. eauto.
Qed.

Lemma finditer_tagged_nil (open close content : string) :
  contains open content = false ∨ contains close content = false →
  finditer (Seq [Str open; Grp 1 (LazyStar Any); Str close]) content = [].
Proof.
  intros Hno.
  destruct (finditer _ content) as [|m ms] eqn:Hf; [done|].
  assert (Hm : m ∈ finditer (Seq [Str open; Grp 1 (LazyStar Any); Str close])
                     content) by (rewrite Hf; left).
  apply finditer_from_elem in Hm as (pre & s0 & pos & -> & Hm).
  apply match_here_Some in Hm as [Hm _].
  apply tagged_pattern_text in Hm as [body ->].
  destruct Hno as [Hno|Hno].
  - by rewrite contains_middle in Hno.
  - rewrite <- (str_app_assoc open body), <- str_app_assoc in Hno.
    by rewrite contains_middle in Hno.
Qed.

Lemma search_tagged_none (open close content : string) :
  contains open content = false ∨ contains close content = false →
  search (Seq [Str open; Grp 1 (LazyStar Any); Str close]) content = None.
Proof.
  intros Hno.
  destruct (search _ content) as [m|] eqn:Hs; [|done].
  apply search_from_Some in Hs as (pre & s0 & -> & Hm).
  apply match_here_Some in Hm as [Hm _].
  apply tagged_pattern_text in Hm as [body ->].
  destruct Hno as [Hno|Hno].
  - by rewrite contains_middle in Hno.
  - rewrite <- (str_app_assoc open body), <- str_app_assoc in Hno.
    by rewrite contains_middle in Hno.
Qed.

(** A response that lacks the opening or the closing tag of a task gives
    a plan without tasks, and one that lacks a tag of the rationale gives
    an empty rationale: nothing is raised. *)
Theorem plan_without_markers (content : string) :
  (contains "<task>" content = false ∨ contains "</task>" content = false →
     parsed_tasks (parse_research_plan content) = [])
  ∧ (contains "<rationale>" content = false
     ∨ contains "</rationale>" content = false →
     parsed_rationale (parse_research_plan content) = "").
Proof.
  unfold parse_research_plan, findall1, task_pattern, rationale_pattern.
  split; intros Hno.
  - cbn [parsed_tasks]. by rewrite finditer_tagged_nil.
  - cbn [parsed_rationale]. by rewrite search_tagged_none.
Qed.

Lemma plan_without_markers_witness :
  (contains "<task>" "I cannot plan this." = false
   ∨ contains "</task>" "I cannot plan this." = false)
  ∧ parsed_tasks (parse_research_plan "I cannot plan this.") = []
  ∧ parsed_rationale (parse_research_plan "I cannot plan this.") = "".
Proof.
  assert (H1 : contains "<task>" "I cannot plan this." = false
               ∨ contains "</task>" "I cannot plan this." = false)
    by (left; reflexivity).
  assert (H2 : contains "<rationale>" "I cannot plan this." = false
               ∨ contains "</rationale>" "I cannot plan this." = false)
    by (left; reflexivity).
  split_and!; [exact H1| |].
  - exact (proj1 (plan_without_markers "I cannot plan this.") H1).
  - exact (proj2 (plan_without_markers "I cannot plan this.") H2).
Defined.

(** ** The registry as a whole *)

Lemma compile_sources_lookup_any (rs : list SubagentResult) (u : string) :
  (_compile_sources rs).2 !! u
    = if decide (u ≠ "")
      then (λ p, meta_of p.2 u) <$> first_reporter u rs
      else None.
Proof.
  unfold _compile_sources. rewrite compile_fold_lookup. cbn [snd].
  by rewrite lookup_empty.
Qed.

Lemma registry_member (rs : list SubagentResult) (u : string) :
  u ∈ (_compile_sources rs).1 ↔ u ≠ "" ∧ ∃ r, r ∈ rs ∧ u ∈ sources r.
Proof.
  pose proof (compile_sources_ok rs) as [_ Hdom].
  rewrite Hdom, compile_sources_lookup_any.
  unfold first_reporter. split.
  - intros [meta Hmeta]. case_decide as Hu; [|done]. split; [done|].
    destruct (list_find _ rs) as [[k r]|] eqn:Hfind; [|done].
    apply list_find_Some in Hfind as (Hk & Hr & _).
    exists r. split; [by eapply list_elem_of_lookup_2|done].
  - intros [Hu (r & Hr & Hur)]. rewrite decide_True by done.
    destruct (list_find_elem_of (λ r, u ∈ sources r) rs r Hr Hur)
      as [[k rk] ->]. by eexists.
Qed.

(** The registry holds each reported URL once: its list has no
    repetition and no empty string, a URL is in the list exactly when it
    is not empty and some result reports it, the keys of the map are the
    URLs of the list, and each value records its own key. *)
Theorem registry_sound_and_complete (rs : list SubagentResult) :
  NoDup (_compile_sources rs).1
  ∧ (∀ u, u ∈ (_compile_sources rs).1
          ↔ u ≠ "" ∧ ∃ r, r ∈ rs ∧ u ∈ sources r)
  ∧ (∀ u, u ∈ (_compile_sources rs).1 ↔ is_Some ((_compile_sources rs).2 !! u))
  ∧ (∀ u meta, (_compile_sources rs).2 !! u = Some meta → meta_url meta = u)
  ∧ size (_compile_sources rs).2 = length (_compile_sources rs).1.
Proof.
  pose proof (compile_sources_ok rs) as [Hnd Hdom].
  split_and!; [done| |done| |].
  - apply registry_member.
  - intros u meta. rewrite compile_sources_lookup_any.
    case_decide; [|done].
    destruct (first_reporter u rs) as [[k r]|]; [|done].
    by intros [= <-].
  - rewrite <- (size_dom (D := gset string)).
    assert (Heq : dom (_compile_sources rs).2
                  = list_to_set (_compile_sources rs).1).
    { apply set_eq. intros u.
      rewrite elem_of_dom, elem_of_list_to_set. by rewrite Hdom. }
    rewrite Heq. by apply size_list_to_set.
Qed.

Lemma register_sources_extends r srcs : ∀ acc,
  ∃ new, (foldl (register_url r) acc srcs).1 = acc.1 ++ new.
Proof.
  induction srcs as [|u srcs IH]; intros acc.
  - exists []. by rewrite app_nil_r.
  - cbn [foldl]. destruct (IH (register_url r acc u)) as [new ->].
    destruct acc as [all m]. unfold register_url.
    destruct (nonempty u); [|by eauto].
    destruct (m !! u); [by eauto|]. simpl.
    exists (u :: new). by rewrite <- app_assoc.
Qed.

Lemma compile_fold_extends rs : ∀ acc,
  ∃ new,
    (foldl (λ acc result, foldl (register_url result) acc (sources result))
           acc rs).1 = acc.1 ++ new.
Proof.
  induction rs as [|r rs IH]; intros acc.
  - exists []. by rewrite app_nil_r.
  - cbn [foldl].
    destruct (IH (foldl (register_url r) acc (sources r))) as [new2 ->].
    destruct (register_sources_extends r (sources r) acc) as [new1 ->].
    exists (new1 ++ new2). by rewrite <- app_assoc.
Qed.

(** Later results only add to the registry: the list built from the
    first results opens the list built from all of them, and what is
    stored for a URL of the first results stays. *)
Theorem registry_grows_at_the_end (rs1 rs2 : list SubagentResult) :
  (_compile_sources rs1).1 `prefix_of` (_compile_sources (rs1 ++ rs2)).1
  ∧ ∀ u meta, (_compile_sources rs1).2 !! u = Some meta →
              (_compile_sources (rs1 ++ rs2)).2 !! u = Some meta.
Proof.
  unfold _compile_sources at 2 4. rewrite foldl_app.
  fold (_compile_sources rs1). split.
  - destruct (compile_fold_extends rs2 (_compile_sources rs1)) as [new ->].
    by exists new.
  - intros u meta Hu. rewrite compile_fold_lookup. by rewrite Hu.
Qed.

(** ** The bound on the plan, for every configuration *)

(** Whatever the bound, the tasks of the plan used for the run open the
    tasks of the parsed plan, in their order, and the rationale is kept. *)
Theorem enforce_max_subagents_prefix (w : world) (plan : ResearchPlan) :
  tasks (enforce_max_subagents w plan) `prefix_of` tasks plan
  ∧ rationale (enforce_max_subagents w plan) = rationale plan
  ∧ estimated_duration (enforce_max_subagents w plan)
    = estimated_duration plan.
Proof.
  unfold enforce_max_subagents, slice_to.
  destruct (len (tasks plan) >? max_subagents (settings w))%Z; [|done].
  simpl. split; [|done].
  destruct (0 <=? max_subagents (settings w))%Z; apply prefix_take.
Qed.

(** With a negative bound the slice counts from the end: the plan loses
    its last [- max_subagents] tasks, all of them when it has fewer. *)
Theorem enforce_max_subagents_negative (w : world) (plan : ResearchPlan) :
  (max_subagents (settings w) < 0)%Z →
  tasks (enforce_max_subagents w plan)
    = take (length (tasks plan) - Z.to_nat (- max_subagents (settings w)))
           (tasks plan).
Proof.
  intros Hneg. unfold enforce_max_subagents, slice_to, len.
  destruct (Z.gtb_spec (Z.of_nat (length (tasks plan)))
              (max_subagents (settings w))); [|lia].
  destruct (Z.leb_spec 0 (max_subagents (settings w))); [lia|].
  simpl. f_equal. lia.
Qed.

Lemma enforce_max_subagents_negative_witness :
  (max_subagents (settings Scenarios.negative_bound) < 0)%Z
  ∧ tasks (enforce_max_subagents Scenarios.negative_bound Scenarios.six_tasks)
    = ["t1"; "t2"; "t3"; "t4"].
Proof.
  assert (H : (max_subagents (settings Scenarios.negative_bound) < 0)%Z)
    by (simpl; lia).
  split; [exact H|].
  rewrite (enforce_max_subagents_negative Scenarios.negative_bound
             Scenarios.six_tasks H).
  reflexivity.
Defined.

(** ** The percents of the workers *)

(** The ranges of the workers tile the range of the research stage: the
    first starts at 25, the last finishes at 70, each one starts where
    the one before finishes, and none goes down. *)
Theorem worker_percent_ranges (n i : Z) :
  (0 ≤ i < n)%Z →
  start_percent n 0 = 25%Z
  ∧ finish_percent n (n - 1) = 70%Z
  ∧ finish_percent n i = start_percent n (i + 1)
  ∧ (25 ≤ start_percent n i ≤ finish_percent n i)%Z
  ∧ (finish_percent n i ≤ 70)%Z.
Proof.
  intros Hi. pose proof (start_percent_range n i Hi) as [? ?].
  split_and!; try done; try lia.
  unfold finish_percent. replace (n - 1 + 1)%Z with n by lia.
  rewrite (Z.mul_comm n 45), Z.div_mul by lia. done.
Qed.

Lemma worker_percent_ranges_witness :
  (0 ≤ 1 < 3)%Z
  ∧ start_percent 3 1 = 40%Z ∧ finish_percent 3 1 = 55%Z
  ∧ finish_percent 3 1 = start_percent 3 (1 + 1).
Proof.
  assert (H : (0 ≤ 1 < 3)%Z) by lia.
  split; [exact H|]. split; [reflexivity|]. split; [reflexivity|].
  exact (proj1 (proj2 (proj2 (worker_percent_ranges 3 1 H)))).
Defined.

(** ** What the coordinator returns *)

Lemma valid_results_from_tasks (w : world) (n : Z) (tasks : list string) :
  ∀ ts pre,
    tasks = pre ++ ts →
    valid_results_from tasks (length pre)
      (imap (λ j sa, coro_outcome w n sa (length pre + j))
            (imap (λ j t, {| sa_task := t;
                             sa_agent_id :=
                               "subagent_" +:+ pretty (length pre + j) |}) ts))
    = Returned (imap (λ j t, coordinator_result w n (length pre + j) t) ts).
Proof.
  induction ts as [|t ts IH]; intros pre Htasks; [done|].
  assert (Ht : tasks !! length pre = Some t).
  { rewrite Htasks. by rewrite list_lookup_middle. }
  specialize (IH (pre ++ [t])).
  rewrite length_app in IH. simpl in IH.
  rewrite <- app_assoc in IH. specialize (IH Htasks).
  rewrite !imap_cons. cbn [valid_results_from].
  assert (E1 : imap ((λ j t0, {| sa_task := t0;
                                 sa_agent_id :=
                                   "subagent_" +:+ pretty (length pre + j) |})
                     ∘ S) ts
               = imap (λ j t0, {| sa_task := t0;
                                  sa_agent_id :=
                                    "subagent_"
                                    +:+ pretty (length pre + 1 + j) |}) ts).
  { apply imap_ext. intros j x _. simpl. do 3 f_equal. lia. }
  rewrite E1.
  assert (E2 : ∀ l : list ResearchSubagent,
            imap ((λ j sa, coro_outcome w n sa (length pre + j)) ∘ S) l
            = imap (λ j sa, coro_outcome w n sa (length pre + 1 + j)) l).
  { intros l. apply imap_ext. intros j x _. simpl. f_equal. lia. }
  rewrite E2.
  assert (E3 : imap ((λ j t0, coordinator_result w n (length pre + j) t0) ∘ S)
                    ts
               = imap (λ j t0, coordinator_result w n (length pre + 1 + j) t0)
                      ts).
  { apply imap_ext. intros j x _. simpl. f_equal. lia. }
  rewrite E3.
  replace (S (length pre)) with (length pre + 1) by lia.
  rewrite IH. unfold coordinator_result. rewrite !Nat.add_0_r.
  destruct (coro_outcome w n _ (length pre)) as [r|e].
  - done.
  - by rewrite Ht.
Qed.

(** The results of the coordinator, position by position. *)
Lemma execute_subagents_parallel_results (w : world) (tasks : list string)
    (l : log) :
  (_execute_subagents_parallel w tasks l).2
    = Returned (imap (coordinator_result w (len tasks)) tasks).
Proof.
  rewrite execute_subagents_parallel_outcome.
  assert (Hlen : len (make_subagents tasks) = len tasks).
  { unfold len, make_subagents. by rewrite length_imap. }
  rewrite Hlen. unfold make_subagents.
  exact (valid_results_from_tasks w (len tasks) tasks tasks [] eq_refl).
Qed.

Lemma execute_subagents_parallel_returns (w : world) (tasks : list string)
    (l : log) :
  ∃ l', _execute_subagents_parallel w tasks l
        = (l', Returned (imap (coordinator_result w (len tasks)) tasks)).
Proof.
  pose proof (execute_subagents_parallel_results w tasks l) as H.
  destruct (_execute_subagents_parallel w tasks l) as [l' o].
  simpl in H. subst o. by exists l'.
Qed.

Lemma research_returns_agent_id (w : world) (self : ResearchSubagent) :
  ∃ r, Subagent.research w self = Returned r
       ∧ agent_id r = sa_agent_id self.
Proof.
  unfold Subagent.research, try_except, Subagent.research_try.
  destruct (executor w _ _) as [res|e]; simpl; [|by eexists].
  destruct (output res) as [raw|]; simpl; by eexists.
Qed.

Lemma coro_outcome_agent_id (w : world) n sa i r :
  coro_outcome w n sa i = Returned r → agent_id r = sa_agent_id sa.
Proof.
  unfold coro_outcome, execute_with_progress, execute_finished, bind, lift.
  destruct (execute_started w n sa (Z.of_nat i) []) as [l0 [[]|e]]; [|done].
  destruct (research_returns_agent_id w sa) as (r0 & -> & Hid).
  destruct (_send_progress w _ _ _ _ l0) as [l1 [[]|e]]; [|done].
  simpl. by intros [= <-].
Qed.

Lemma coordinator_result_agent_id (w : world) n i t :
  agent_id (coordinator_result w n i t) = "subagent_" +:+ pretty i.
Proof.
  unfold coordinator_result.
  destruct (coro_outcome w n _ i) as [r|e] eqn:Hc; [|done].
  by apply coro_outcome_agent_id in Hc.
Qed.




(** ** The run as a whole *)

Lemma bind_eq {A B} (m : M A) (f : A → M B) (l l1 : log) (a : A) :
  m l = (l1, Returned a) → bind m f l = f a l1.
Proof. unfold bind. by intros ->. Qed.

Lemma bind_raised {A B} (m : M A) (f : A → M B) (l l1 : log) (e : string) :
  m l = (l1, Raised e) → bind m f l = (l1, Raised e).
Proof. unfold bind. by intros ->. Qed.

Lemma send_progress_quiet (w : world) ph msg pc d (l : log) :
  (∀ u, progress_callback w u = None) →
  ∃ u, _send_progress w ph msg pc d l = (l ++ [u], Returned tt)
       ∧ phase u = ph ∧ percent u = pc.
Proof.
  intros Hq. unfold _send_progress. rewrite Hq. by eexists.
Qed.

Lemma coordinator_result_task (w : world) n i t :
  task (coordinator_result w n i t) = t.
Proof.
  unfold coordinator_result.
  destruct (coro_outcome w n _ i) as [r|e] eqn:Hc; [|done].
  by apply coro_outcome_task in Hc.
Qed.





(** ** The number of updates *)

Section Counting.
Variable w : world.
Hypothesis quiet : ∀ u, progress_callback w u = None.

Lemma execute_started_quiet n sa i (l : log) :
  ∃ u, execute_started w n sa i l = (l ++ [u], Returned tt).
Proof.
  unfold execute_started.
  destruct (send_progress_quiet w "subagent_started"
              ("Starting research agent " +:+ pretty (i + 1)%Z +:+ "/"
               +:+ pretty n) (start_percent n i)
              [("subagent_id", DStr (sa_agent_id sa));
               ("task", DStr (sa_task sa))] l quiet) as (u & E & _).
  eauto.
Qed.

Lemma execute_finished_quiet n sa i (l : log) :
  ∃ u r, execute_finished w n sa i l = (l ++ [u], Returned r).
Proof.
  unfold execute_finished.
  destruct (research_returns w sa) as (r & Hr & _). rewrite Hr.
  erewrite bind_eq by reflexivity.
  unfold bind, _send_progress, ret. rewrite quiet. eauto.
Qed.

Lemma sum_updates_insert (slots : list coro) i c c' :
  slots !! i = Some c →
  sum_list_with updates_sent (<[i := c']> slots) + updates_sent c
  = sum_list_with updates_sent slots + updates_sent c'.
Proof.
  revert i. induction slots as [|d slots IH]; intros i Hi; [done|].
  destruct i as [|i]; simpl in *.
  - simplify_eq. lia.
  - specialize (IH i Hi). lia.
Qed.

Lemma gather_step_count subagents slots (l : log) a :
  length (gather_step w subagents (slots, l) a).2
  + sum_list_with updates_sent slots
  = length l
    + sum_list_with updates_sent (gather_step w subagents (slots, l) a).1.
Proof.
  unfold gather_step. destruct a as [|i].
  - destruct (list_find _ slots) as [[i c]|] eqn:Hfind; [|simpl; lia].
    apply list_find_Some in Hfind as (Hi & Hc & _).
    destruct (subagents !! i) as [sa|]; [|simpl; lia].
    destruct (execute_started_quiet (len subagents) sa (Z.of_nat i) l)
      as [u ->]. cbn [fst snd].
    pose proof (sum_updates_insert slots i c Awaiting Hi) as Hs.
    destruct c; try done. rewrite length_app. simpl in *. lia.
  - destruct (slots !! i) as [[| |o]|] eqn:Hi; try (simpl; lia).
    destruct (subagents !! i) as [sa|]; [|simpl; lia].
    destruct (execute_finished_quiet (len subagents) sa (Z.of_nat i) l)
      as (u & r & ->). cbn [fst snd].
    pose proof (sum_updates_insert slots i Awaiting (Settled (Returned r)) Hi)
      as Hs.
    rewrite length_app. simpl in *. lia.
Qed.

Lemma gather_schedule_count subagents sched : ∀ slots (l : log),
  length (foldl (gather_step w subagents) (slots, l) sched).2
  + sum_list_with updates_sent slots
  = length l
    + sum_list_with updates_sent
        (foldl (gather_step w subagents) (slots, l) sched).1
  ∧ length (foldl (gather_step w subagents) (slots, l) sched).1
    = length slots.
Proof.
  induction sched as [|a sched IH]; intros slots l; [done|].
  cbn [foldl].
  pose proof (gather_step_count subagents slots l a) as Hstep.
  assert (Hlen : length (gather_step w subagents (slots, l) a).1
                 = length slots).
  { unfold gather_step. destruct a as [|i].
    - destruct (list_find _ slots) as [[i c]|]; [|done].
      destruct (subagents !! i) as [sa|]; [|done].
      destruct (execute_started w _ sa _ l) as [l' [[]|e]];
        simpl; by rewrite length_insert.
    - destruct (slots !! i) as [[| |o]|]; try done.
      destruct (subagents !! i) as [sa|]; [|done].
      destruct (execute_finished w _ sa _ l) as [l' o'].
      simpl. by rewrite length_insert. }
  destruct (gather_step w subagents (slots, l) a) as [slots1 l1].
  simpl in *. destruct (IH slots1 l1) as [IH1 IH2]. split; lia.
Qed.

Lemma drain_count n subagents : ∀ index slots (l : log),
  length slots = length subagents →
  length (drain w n index subagents slots l).1
  + sum_list_with updates_sent slots
  = length l + 2 * length subagents.
Proof.
  induction subagents as [|sa subagents IH]; intros index slots l Hlen.
  - destruct slots; [simpl; lia|done].
  - destruct slots as [|c slots]; [done|].
    injection Hlen as Hlen. cbn [drain].
    assert (Hhead : ∃ l1 o1,
              match c with
              | Pending => execute_with_progress w n sa (Z.of_nat index) l
              | Awaiting => execute_finished w n sa (Z.of_nat index) l
              | Settled o => (l, o)
              end = (l1, o1)
              ∧ length l1 + updates_sent c = length l + 2).
    { destruct c as [| |o].
      - unfold execute_with_progress.
        destruct (execute_started_quiet n sa (Z.of_nat index) l) as [u E].
        erewrite bind_eq by exact E.
        destruct (execute_finished_quiet n sa (Z.of_nat index) (l ++ [u]))
          as (u' & r & ->).
        eexists _, _. split; [done|]. rewrite !length_app. simpl. lia.
      - destruct (execute_finished_quiet n sa (Z.of_nat index) l)
          as (u' & r & ->).
        eexists _, _. split; [done|]. rewrite !length_app. simpl. lia.
      - eexists _, _. split; [done|]. simpl. lia. }
    destruct Hhead as (l1 & o1 & -> & Hl1).
    specialize (IH (S index) slots l1 Hlen).
    destruct (drain w n (S index) subagents slots l1) as [l2 os].
    simpl in *. lia.
Qed.

End Counting.



(** ** The citation resolver on a response without heading *)

Lemma lower_app (a b : string) : lower (a +:+ b) = lower a +:+ lower b.
Proof.
  induction a as [|c a IH]; [done|].
  rewrite str_app_cons. simpl. rewrite IH. by rewrite str_app_cons.
Qed.

(** Where the heading pattern matches, the text holds one of the three
    heading words, in some case. *)
Lemma bibliography_pattern_text s s' cs' :
  matches bibliography_pattern s [] s' cs' →
  ∃ q rest, s = q +:+ rest
            ∧ (lower q = "bibliography" ∨ lower q = "sources"
               ∨ lower q = "references").
Proof.
  unfold bibliography_pattern. cbn [Seq]. intros H.
  apply matches_Cat_inv in H as (s1 & cs1 & Hword & _).
  inversion Hword as [| | | | |? ? ? ? ? ? Hl|? ? ? ? ? ? Hr| | | | | | ]; subst.
  - apply (matches_StrI "Bibliography") in Hl as (q & -> & Hq & _). eauto.
  - inversion Hr as [| | | | |? ? ? ? ? ? Hl|? ? ? ? ? ? Hr2| | | | | | ]; subst.
    + apply (matches_StrI "Sources") in Hl as (q & -> & Hq & _). eauto 6.
    + apply (matches_StrI "References") in Hr2 as (q & -> & Hq & _). eauto 6.
Qed.

Lemma search_bibliography_none (text : string) :
  contains "bibliography" (lower text) = false →
  contains "sources" (lower text) = false →
  contains "references" (lower text) = false →
  search bibliography_pattern text = None.
Proof.
  intros Hb Hs Hr.
  destruct (search bibliography_pattern text) as [m|] eqn:Hm; [|done].
  apply search_from_Some in Hm as (pre & s0 & -> & Hm).
  apply match_here_Some in Hm as [Hm _].
  apply bibliography_pattern_text in Hm as (q & rest & -> & Hq).
  rewrite !lower_app in Hb, Hs, Hr.
  destruct Hq as [Hq|[Hq|Hq]]; rewrite Hq in *.
  - by rewrite contains_middle in Hb.
  - by rewrite contains_middle in Hs.
  - by rewrite contains_middle in Hr.
Qed.

Lemma fallback_citations_urls (today : string) (sources : list string) :
  url <$> fallback_citations today sources = sources
  ∧ title <$> fallback_citations today sources = sources.
Proof.
  unfold fallback_citations. generalize 1%Z. intros start.
  split; revert start;
    (induction sources as [|u sources IH]; intros start; [done|];
     simpl; f_equal; apply IH).
Qed.



(** ** The run under two schedules *)

Lemma same_outcome_bind {A B} (m m' : M A) (f f' : A → M B) :
  same_outcome m m' → (∀ a, same_outcome (f a) (f' a)) →
  same_outcome (bind m f) (bind m' f').
Proof.
  intros Hm Hf l l'. unfold bind. specialize (Hm l l').
  destruct (m l) as [l1 o1], (m' l') as [l1' o1']. simpl in Hm. subst o1'.
  destruct o1 as [a|e]; [apply Hf|done].
Qed.

Lemma same_outcome_try_catch {A} (m m' : M A) (h h' : string → M A) :
  same_outcome m m' → (∀ e, same_outcome (h e) (h' e)) →
  same_outcome (try_catch m h) (try_catch m' h').
Proof.
  intros Hm Hh l l'. unfold try_catch. specialize (Hm l l').
  destruct (m l) as [l1 o1], (m' l') as [l1' o1']. simpl in Hm. subst o1'.
  destruct o1 as [a|e]; [done|apply Hh].
Qed.


(** ** The fields of a parsed Citation *)

Lemma all_chars_app p (a b : string) :
  all_chars p (a +:+ b) = all_chars p a && all_chars p b.
Proof.
  induction a as [|c a IH]; [done|].
  rewrite str_app_cons. simpl. rewrite IH. by rewrite andb_assoc.
Qed.

Lemma all_chars_lstrip p s : all_chars p s = true → all_chars p (lstrip s) = true.
Proof.
  induction s as [|c s IH]; [done|]. simpl.
  intros [Hc Hs]%andb_true_iff.
  destruct (is_space c); [by apply IH|]. simpl. by rewrite Hc, Hs.
Qed.

Lemma all_chars_rstrip p s : all_chars p s = true → all_chars p (rstrip s) = true.
Proof.
  induction s as [|c s IH]; [done|]. simpl.
  intros [Hc Hs]%andb_true_iff. specialize (IH Hs).
  destruct (rstrip s) as [|d r].
  - destruct (is_space c); [done|]. simpl. by rewrite Hc.
  - simpl in *. by rewrite Hc.
Qed.

Lemma all_chars_strip p s : all_chars p s = true → all_chars p (strip s) = true.
Proof. intros H. by apply all_chars_rstrip, all_chars_lstrip. Qed.

Lemma all_chars_replace_from p old : ∀ s skip,
  all_chars p s = true → all_chars p (replace_from old "" skip s) = true.
Proof.
  induction s as [|c s IH]; intros skip; [done|].
  cbn [replace_from all_chars].
  intros [Hc Hs]%andb_true_iff.
  destruct skip as [|k]; [|by apply IH].
  destruct (String.prefix old (String c s)).
  - by apply IH.
  - cbn [all_chars]. rewrite Hc. by apply IH.
Qed.

Lemma split_char_pieces sep s piece :
  piece ∈ split_char sep s →
  all_chars (λ c, negb (Ascii.eqb c sep)) piece = true.
Proof.
  revert piece. induction s as [|c s IH]; intros piece; simpl.
  - by intros ->%list_elem_of_singleton.
  - destruct (Ascii.eqb c sep) eqn:Hc.
    + intros [->|H]%elem_of_cons; [done|by apply IH].
    + destruct (split_char sep s) as [|first rest].
      * intros ->%list_elem_of_singleton. simpl. by rewrite Hc.
      * intros [->|H]%elem_of_cons.
        -- simpl. rewrite Hc. simpl. apply IH. by left.
        -- apply IH. by right.
Qed.

Lemma split_char_hd sep s :
  all_chars (λ c, negb (Ascii.eqb c sep)) (hd "" (split_char sep s)) = true.
Proof.
  destruct (split_char sep s) as [|first rest] eqn:Hs; [done|].
  apply split_char_pieces with (s := s). rewrite Hs. by left.
Qed.

Lemma matches_LazyStar_Cls p s cs s' cs' :
  matches (LazyStar (Cls p)) s cs s' cs' →
  ∃ q, s = q +:+ s' ∧ all_chars p q = true ∧ cs' = cs.
Proof.
  remember (LazyStar (Cls p)) as r eqn:Hr.
  induction 1; try discriminate Hr.
  - by exists "".
  - injection Hr as ->. specialize (IHmatches2 eq_refl).
    destruct IHmatches2 as (q & -> & Hq & ->).
    inversion H; subst.
    exists (String a q). simpl. split_and!; [done| |done].
    by rewrite Hq, andb_true_r.
Qed.

Lemma matches_Grp_inv n r s cs s' cs'' :
  matches (Grp n r) s cs s' cs'' →
  ∃ cs', matches r s cs s' cs'
         ∧ cs'' = (n, str_take (String.length s - String.length s') s) :: cs'.
Proof. inversion 1; subst. eauto. Qed.

(** The group of a match of a labelled line, [label\s*(.+?)(?:\n|$)]: a
    text without newline. *)
Lemma labelled_line_group (label s : string) (m : rmatch_result) :
  search (Seq [Str label; Star Space; Grp 1 (LazyPlus Dot);
               Alt (Lit nl) Eos]) s = Some m →
  single_line (group m 1).
Proof.
  intros Hs. apply search_from_Some in Hs as (pre & s0 & _ & Hm).
  apply match_here_Some in Hm as [Hm _].
  cbn [Seq] in Hm. split_Cat.
  apply matches_Str in Hm0 as [-> ->].
  apply matches_groupless in Hm1 as ->; [|done].
  inversion Hm; subst. clear Hm.
  apply matches_groupless in Hm3 as Hcs; [|done].
  apply matches_Grp_inv in Hm2 as (csb & Hbody & Hg).
  unfold group. rewrite Hcs, Hg. simpl.
  unfold LazyPlus in Hbody.
  apply matches_Cat_inv in Hbody as (s5 & cs5 & Hone & Hmore).
  inversion Hone; subst.
  apply matches_LazyStar_Cls in Hmore as (q & -> & Hq & _).
  change (String a (q +:+ s3)) with (String a q +:+ s3).
  rewrite str_take_app. unfold single_line. simpl.
  rewrite Hq. by rewrite andb_true_r.
Qed.

Lemma entry_url_single_line (m : rmatch_result) : single_line (entry_url m).
Proof.
  unfold entry_url.
  destruct (search url_pattern_line (entry_text m)) as [um|] eqn:Hs; [|done].
  apply all_chars_strip. by eapply (labelled_line_group "URL:").
Qed.

Lemma entry_accessed_date_single_line (m : rmatch_result) :
  single_line (entry_accessed_date m).
Proof.
  unfold entry_accessed_date.
  destruct (search accessed_pattern (entry_text m)) as [dm|] eqn:Hs; [|done].
  apply all_chars_strip. by eapply (labelled_line_group "Accessed:").
Qed.

Lemma entry_title_single_line (m : rmatch_result) :
  single_line (entry_title m).
Proof.
  unfold entry_title, replace.
  apply all_chars_strip, all_chars_replace_from, split_char_hd.
Qed.

(** Every Citation parsed from a recognised section has a title, a URL
    and an access date without newline: each fits on one line. *)
Theorem parsed_citation_fields_single_line (today text : string)
    (sources : list string) (bib_match : rmatch_result) (c : Citation) :
  search bibliography_pattern text = Some bib_match →
  c ∈ parse_bibliography today text sources →
  single_line (title c) ∧ single_line (url c)
  ∧ single_line (accessed_date c).
Proof.
  intros Hsome Hc. unfold parse_bibliography in Hc. rewrite Hsome in Hc.
  apply list_elem_of_fmap in Hc as (m & -> & _).
  unfold citation_of_match. simpl. split_and!.
  - destruct (negb (startswith (entry_title m) "http")).
    + apply entry_title_single_line.
    + apply entry_url_single_line.
  - destruct (nonempty (entry_url m)).
    + apply entry_url_single_line.
    + apply entry_title_single_line.
  - apply entry_accessed_date_single_line.
Qed.

Lemma parsed_citation_fields_single_line_witness :
  ∃ bib_match c,
    search bibliography_pattern Scenarios.two_entries = Some bib_match
    ∧ c ∈ parse_bibliography "2025-01-01" Scenarios.two_entries []
    ∧ title c = "First title"
    ∧ single_line (title c) ∧ single_line (url c)
    ∧ single_line (accessed_date c).
Proof.
  destruct (search bibliography_pattern Scenarios.two_entries)
    as [bib_match|] eqn:Hs; [|by vm_compute in Hs].
  exists bib_match,
    {| index := 1; title := "First title"; url := "http://a.com/x";
       accessed_date := "2024-01-01"; excerpt := None |}.
  assert (Hc : {| index := 1; title := "First title"; url := "http://a.com/x";
                  accessed_date := "2024-01-01"; excerpt := None |}
               ∈ parse_bibliography "2025-01-01" Scenarios.two_entries []).
  { replace (parse_bibliography "2025-01-01" Scenarios.two_entries [])
      with [ {| index := 1; title := "First title"; url := "http://a.com/x";
                accessed_date := "2024-01-01"; excerpt := None |} ]
      by (by vm_compute).
    apply elem_of_cons. by left. }
  split; [done|]. split; [exact Hc|]. split; [done|].
  exact (parsed_citation_fields_single_line "2025-01-01" Scenarios.two_entries
           [] bib_match _ Hs Hc).
Defined.

(** ** The formatters *)

Import Formatters.

Lemma str_take_length (n : nat) (s : string) :
  String.length (str_take n s) = min n (String.length s).
Proof.
  revert s. induction n as [|n IH]; intros s; [done|].
  destruct s as [|c s]; [done|]. simpl. by rewrite IH.
Qed.

Lemma map_chars_length f s : String.length (map_chars f s) = String.length s.
Proof. induction s as [|c s IH]; [done|]. simpl. by rewrite IH. Qed.

Lemma all_chars_map_chars (p : ascii → bool) f s :
  (∀ c, p (f c) = true) → all_chars p (map_chars f s) = true.
Proof.
  intros Hf. induction s as [|c s IH]; [done|]. simpl. by rewrite Hf, IH.
Qed.

Lemma all_chars_not_contains (x : ascii) (s : string) :
  all_chars (λ c, negb (Ascii.eqb c x)) s = true →
  contains (String x "") s = false.
Proof.
  induction s as [|c s IH]; [done|]. cbn [all_chars contains].
  intros [Hc Hs]%andb_true_iff. rewrite (IH Hs), orb_false_r.
  simpl. destruct (ascii_dec x c) as [->|]; [|done].
  by rewrite Ascii.eqb_refl in Hc.
Qed.

Lemma all_chars_impl (p q : ascii → bool) s :
  (∀ c, p c = true → q c = true) →
  all_chars p s = true → all_chars q s = true.
Proof.
  intros Hpq. induction s as [|c s IH]; [done|]. simpl.
  intros [Hc Hs]%andb_true_iff. by rewrite (Hpq _ Hc), IH.
Qed.

(** The part of a file name that [save_result] makes of the query has at
    most 50 characters, as many as the query when it is shorter; each is
    alphanumeric or an underscore, so the name holds no path separator, no
    dot and no space coming from the query. *)
Theorem query_slug_is_safe (query : string) :
  String.length (query_slug query) = min 50 (String.length query)
  ∧ all_chars (λ c, is_alnum c || Ascii.eqb c "_") (query_slug query) = true
  ∧ contains "/" (query_slug query) = false
  ∧ contains "\" (query_slug query) = false
  ∧ contains "." (query_slug query) = false
  ∧ contains " " (query_slug query) = false.
Proof.
  assert (Hsafe : all_chars (λ c, is_alnum c || Ascii.eqb c "_")
                    (query_slug query) = true).
  { unfold query_slug. apply all_chars_map_chars. intros c.
    destruct (is_alnum c) eqn:Hc; [by rewrite Hc|done]. }
  split_and!; [|done|..].
  - unfold query_slug. by rewrite map_chars_length, str_take_length.
  - apply all_chars_not_contains.
    refine (all_chars_impl _ _ _ _ Hsafe). intros c Hc.
    destruct (Ascii.eqb_spec c "/") as [->|]; [by vm_compute in Hc|done].
  - apply all_chars_not_contains.
    refine (all_chars_impl _ _ _ _ Hsafe). intros c Hc.
    destruct (Ascii.eqb_spec c "\") as [->|]; [by vm_compute in Hc|done].
  - apply all_chars_not_contains.
    refine (all_chars_impl _ _ _ _ Hsafe). intros c Hc.
    destruct (Ascii.eqb_spec c ".") as [->|]; [by vm_compute in Hc|done].
  - apply all_chars_not_contains.
    refine (all_chars_impl _ _ _ _ Hsafe). intros c Hc.
    destruct (Ascii.eqb_spec c " ") as [->|]; [by vm_compute in Hc|done].
Qed.

Lemma str_app_nil_r (s : string) : s +:+ "" = s.
Proof.
  induction s as [|c s IH]; [done|]. rewrite str_app_cons. by rewrite IH.
Qed.

Lemma concat_cons (x : string) (xs : list string) :
  String.concat "" (x :: xs) = x +:+ String.concat "" xs.
Proof. destruct xs; simpl; [by rewrite str_app_nil_r|done]. Qed.

Lemma foldl_append {A} (f : A → string) (cs : list A) : ∀ acc,
  foldl (λ md c, md +:+ f c) acc cs = acc +:+ String.concat "" (f <$> cs).
Proof.
  induction cs as [|c cs IH]; intros acc.
  - simpl. by rewrite str_app_nil_r.
  - cbn [foldl]. rewrite IH. rewrite fmap_cons, concat_cons.
    by rewrite str_app_assoc.
Qed.



Lemma coro_outcome_research (w : world) n sa i r :
  coro_outcome w n sa i = Returned r → Subagent.research w sa = Returned r.
Proof.
  unfold coro_outcome, execute_with_progress, execute_finished, bind, lift.
  destruct (execute_started w n sa (Z.of_nat i) []) as [l0 [[]|e]]; [|done].
  destruct (research_returns_agent_id w sa) as (r0 & Hr0 & _).
  rewrite Hr0.
  destruct (_send_progress w _ _ _ _ l0) as [l1 [[]|e]]; [|done].
  simpl. by intros [= <-].
Qed.



(** The summary taken from a worker's text has no white space around it,
    whether it comes from a "Summary" heading or is the first paragraph
    that is not blank; the one exception is a text without such a heading
    all of whose paragraphs are blank, of which the first 200 characters
    are returned as they are.  Without a heading and with a paragraph
    that is not blank the summary is not empty. *)
Theorem extract_summary_stripped (text : string) :
  (strip (extract_summary text) = extract_summary text
   ∨ (search summary_pattern text = None
      ∧ (∀ p, p ∈ split text (NL +:+ NL) → strip p = "")
      ∧ extract_summary text = str_take 200 text))
  ∧ (search summary_pattern text = None →
     ∀ p, p ∈ split text (NL +:+ NL) → strip p ≠ "" →
     extract_summary text ≠ "").
Proof.
  unfold extract_summary.
  destruct (search summary_pattern text) as [m|]; [|clear].
  { split; [left; apply strip_idemp|done]. }
  destruct (List.filter _ (split text (NL +:+ NL))) as [|p0 ps] eqn:Hf.
  - assert (Hall : ∀ p, p ∈ split text (NL +:+ NL) → strip p = "").
    { intros p Hp%list_elem_of_In.
      destruct (nonempty (strip p)) eqn:Hne.
      - assert (Hin : In p (List.filter (λ p, nonempty (strip p))
                              (split text (NL +:+ NL)))).
        { apply filter_In. by split. }
        rewrite Hf in Hin. destruct Hin.
      - by destruct (strip p). }
    split; [right; by split_and!|].
    intros _ p Hp Hne. by destruct (Hne (Hall p Hp)).
  - assert (Hin : In p0 (List.filter (λ p, nonempty (strip p))
                           (split text (NL +:+ NL)))).
    { rewrite Hf. by left. }
    apply filter_In in Hin as [_ Hne]. simpl.
    split; [left; apply strip_idemp|].
    intros _ _ _ _ Hp0. by rewrite Hp0 in Hne.
Qed.

Lemma extract_summary_stripped_witness :
  extract_summary ("  First paragraph." +:+ NL +:+ NL +:+ "Second.") ≠ "".
Proof.
  apply (proj2 (extract_summary_stripped
                  ("  First paragraph." +:+ NL +:+ NL +:+ "Second.")))
    with (p := "  First paragraph.").
  - reflexivity.
  - vm_compute. left.
  - vm_compute. discriminate.
Defined.

Lemma send_progress_appends (w : world) ph msg pc d (l : log) :
  ∃ u, (_send_progress w ph msg pc d l).1 = l ++ [u]
       ∧ phase u = ph ∧ percent u = pc.
Proof. unfold _send_progress. by eexists. Qed.

